(** * XGMML rebuilder: a shallow embedding of [rebuild.py]

    The script completes an edges-only XGMML document: it reads a FASTA
    file and a tab-separated metadata file, collects the node identifiers
    named by the edges, synthesizes one node element per identifier and
    splices the block of nodes in front of the first edge.  [client.py]
    carries a second copy of the same functions; the two copies differ only
    in what they print.

    Conventions of the embedding:
    - a Python [str] is a [text], a list of characters; the development
      covers ASCII text, so [str.upper] and [str.strip] are modelled on the
      code points below 128;
    - a file holds the text that [f.read()] returns (text mode, newlines
      already translated); the file system is a finite map from paths to
      texts;
    - a [dict] is an association list in insertion order with unique keys;
    - a [set] of strings is a [gset text];
    - what the script prints is not modelled, the counters it prints are
      returned instead;
    - [main] is the command line of [rebuild.py], its result the exit
      status of the process. *)

From Stdlib Require Import Ascii String List Arith Lia DecimalString.
From stdpp Require Import base decidable option list sorting gmap strings.

Local Open Scope list_scope.

(** ** Text *)

Abbreviation text := (list ascii).

Definition T (s : string) : text := list_ascii_of_string s.

Definition dq : ascii := "034"%char.
Definition nl : ascii := "010"%char.
Definition tab : ascii := "009"%char.
Definition sp : ascii := " "%char.
Definition gt : ascii := ">"%char.
Definition lt_ : ascii := "<"%char.

(** [str.isspace] on one ASCII character: the six C whitespace characters
    and the four separators 0x1c-0x1f. *)
Definition isspace (c : ascii) : bool :=
  match c with
  | "009" | "010" | "011" | "012" | "013"
  | "028" | "029" | "030" | "031" | " " => true
  | _ => false
  end%char.

Fixpoint lstrip (s : text) : text :=
  match s with
  | c :: s' => if isspace c then lstrip s' else s
  | [] => []
  end.

Definition rstrip (s : text) : text := rev (lstrip (rev s)).

(** [s.strip()] *)
Definition strip (s : text) : text := rstrip (lstrip s).

(** [s.upper()] *)
Definition upper_char (c : ascii) : ascii :=
  let n := nat_of_ascii c in
  if (97 <=? n) && (n <=? 122) then ascii_of_nat (n - 32) else c.

Definition upper (s : text) : text := map upper_char s.

(** [s.split(sep)] for a one-character separator: the first piece and the
    pieces after it, so that the result is never the empty list. *)
Fixpoint split_aux (sep : ascii) (s : text) : text * list text :=
  match s with
  | [] => ([], [])
  | c :: s' =>
      let '(w, ws) := split_aux sep s' in
      if decide (c = sep) then ([], w :: ws) else (c :: w, ws)
  end.

Definition split (sep : ascii) (s : text) : list text :=
  let '(w, ws) := split_aux sep s in w :: ws.

(** [s.replace(c, '')] for a one-character [c] *)
Definition remove_char (c : ascii) (s : text) : text :=
  filter (λ x, x ≠ c) s.

(** [sep.join(parts)] *)
Fixpoint join (sep : text) (parts : list text) : text :=
  match parts with
  | [] => []
  | [p] => p
  | p :: ps => p ++ sep ++ join sep ps
  end.

(** [f.readlines()]: the lines of a text, each with its newline. *)
Fixpoint readlines (s : text) : list text :=
  match s with
  | [] => []
  | c :: s' =>
      if decide (c = nl) then [c] :: readlines s'
      else match readlines s' with
           | [] => [[c]]
           | l :: ls => (c :: l) :: ls
           end
  end.

(** [str(n)] for a non-negative integer *)
Definition str_of_nat (n : nat) : text :=
  T (NilZero.string_of_uint (Nat.to_uint n)).

(** ** Dictionaries in insertion order *)

Abbreviation dict := (list (text * text)).

(** [d[k] = v]: an existing key keeps its place, a new key goes last. *)
Fixpoint dict_set (d : dict) (k v : text) : dict :=
  match d with
  | [] => [(k, v)]
  | (k', v') :: d' =>
      if decide (k' = k) then (k', v) :: d' else (k', v') :: dict_set d' k v
  end.

Fixpoint dict_get (d : dict) (k : text) : option text :=
  match d with
  | [] => None
  | (k', v') :: d' => if decide (k' = k) then Some v' else dict_get d' k
  end.

(** ** Files and exceptions *)

Inductive exn : Type :=
  | FileNotFoundError (path : string)
  | ValueError (msg : string).

Abbreviation filesystem := (gmap string text).

(** A computation reads and writes the file system and either returns a
    value or raises; the file system it leaves behind is kept in both
    cases. *)
Definition M (A : Type) : Type := filesystem → (exn + A) * filesystem.

Definition ret {A} (a : A) : M A := λ fs, (inr a, fs).
Definition raise {A} (e : exn) : M A := λ fs, (inl e, fs).
Definition bind {A B} (k : A → M B) (m : M A) : M B :=
  λ fs, match m fs with
        | (inl e, fs') => (inl e, fs')
        | (inr a, fs') => k a fs'
        end.

#[global] Instance M_ret : MRet M := @ret.
#[global] Instance M_bind : MBind M := @bind.

(** [open(path, 'r').read()] *)
Definition read_file (path : string) : M text :=
  λ fs, match fs !! path with
        | Some content => (inr content, fs)
        | None => (inl (FileNotFoundError path), fs)
        end.

(** [open(path, 'w').write(content)] *)
Definition write_file (path : string) (content : text) : M unit :=
  λ fs, (inr tt, <[path := content]> fs).

(** ** parse_fasta *)

(** The body of the loop over the entries. *)
Definition fasta_entry (sequences : dict) (entry : text) : dict :=
  let lines := split nl (strip entry) in
  match lines with
  | [] => sequences
  | line0 :: body =>
      let header := strip line0 in
      let sequence := remove_char sp (remove_char nl (concat body)) in
      dict_set sequences header sequence
  end.

Definition parse_fasta_text (content : text) : dict :=
  let entries := tail (split gt content) in
  fold_left fasta_entry entries [].

Definition parse_fasta (fasta_file : string) : M dict :=
  content ← read_file fasta_file;
  ret (parse_fasta_text content).

(** ** parse_metadata_tab *)

Definition description_key : text := T "Description".

(** The body of the loop over the lines. *)
Definition metadata_line (descriptions : dict) (line : text) : dict :=
  let parts := split tab (strip line) in
  match parts with
  | seq_id :: attribute :: value :: _ =>
      if decide (attribute = description_key)
      then dict_set descriptions seq_id value
      else descriptions
  | _ => descriptions
  end.

Definition parse_metadata_lines (lines : list text) : dict :=
  fold_left metadata_line (tail lines) [].

Definition parse_metadata_text (content : text) : dict :=
  parse_metadata_lines (readlines content).

Definition parse_metadata_tab (tab_file : string) : M dict :=
  content ← read_file tab_file;
  ret (parse_metadata_text content).

(** ** The regular expressions of the script

    The four patterns use literal characters, the greedy repetition of a
    negated one-character class and one capturing group.
    A pattern is a list of such atoms; [match_here] is the backtracking
    matcher of [re]: a repetition first takes the longest run and gives
    characters back one at a time while the rest of the pattern fails. *)

Inductive atom : Type :=
  | Chr (c : ascii)        (* a literal character *)
  | StarNot (c : ascii)    (* [^c]* , greedy *)
  | GroupOpen              (* ( *)
  | GroupClose.            (* ) *)

Abbreviation pattern := (list atom).

Definition lit (s : text) : pattern := map Chr s.

(** The character [x] has been consumed: it joins group 1 when the group
    was open at that point. *)
Definition consume (g : bool) (x : ascii) (r : option (text * text))
  : option (text * text) :=
  match r with
  | Some (cap, rest) => Some (if g then x :: cap else cap, rest)
  | None => None
  end.

(** The greedy repetition [[^c]*] followed by the rest of the pattern [k]:
    take one more character when that lets the rest match, otherwise stop
    here. *)
Fixpoint star (c : ascii) (g : bool) (k : text → option (text * text))
    (s : text) : option (text * text) :=
  match s with
  | x :: s' =>
      if decide (x = c) then k s
      else match consume g x (star c g k s') with
           | Some r => Some r
           | None => k s
           end
  | [] => k s
  end.

(** [match_here p g s]: match [p] at the start of [s]; [g] tells whether
    group 1 is open.  The result is the text of group 1 and the text left
    after the match. *)
Fixpoint match_here (p : pattern) (g : bool) (s : text)
  : option (text * text) :=
  match p with
  | [] => Some ([], s)
  | GroupOpen :: p' => match_here p' true s
  | GroupClose :: p' => match_here p' false s
  | Chr c :: p' =>
      match s with
      | x :: s' => if decide (x = c) then consume g x (match_here p' g s')
                   else None
      | [] => None
      end
  | StarNot c :: p' => star c g (match_here p' g) s
  end.

(** A match object: where the match starts, group 1, and the text after the
    end of the match. *)
Record re_match : Type := MkMatch {
  m_start : nat;
  m_group1 : text;
  m_rest : text
}.

Definition shift (m : re_match) : re_match :=
  MkMatch (S (m_start m)) (m_group1 m) (m_rest m).

(** [re.search(p, s)]: the match at the leftmost position that has one. *)
Fixpoint re_search (p : pattern) (s : text) : option re_match :=
  match match_here p false s with
  | Some (cap, rest) => Some (MkMatch 0 cap rest)
  | None =>
      match s with
      | [] => None
      | _ :: s' => shift <$> re_search p s'
      end
  end.

(** [re.findall(p, s)] for a pattern with one group: group 1 of the
    successive non-overlapping matches, each search resuming where the
    previous match ended.  Every match of the patterns of the script
    consumes at least one character, so one unit of fuel per character of
    [s], and one more, is enough ([re_findall_unfold] below). *)
Fixpoint findall_from (fuel : nat) (p : pattern) (s : text) : list text :=
  match fuel with
  | 0 => []
  | S fuel' =>
      match re_search p s with
      | None => []
      | Some m => m_group1 m :: findall_from fuel' p (m_rest m)
      end
  end.

Definition re_findall (p : pattern) (s : text) : list text :=
  findall_from (S (length s)) p s.

(** The source pattern: [<edge], any run of characters other than [>],
    [source=], a double quote, group 1 holding any run of characters other
    than the double quote, a double quote. *)
Definition source_pattern : pattern :=
  lit (T "<edge") ++ [StarNot gt] ++ lit (T "source=" ++ [dq]) ++
  [GroupOpen; StarNot dq; GroupClose] ++ lit [dq].

(** The target pattern: the same with [target=]. *)
Definition target_pattern : pattern :=
  lit (T "<edge") ++ [StarNot gt] ++ lit (T "target=" ++ [dq]) ++
  [GroupOpen; StarNot dq; GroupClose] ++ lit [dq].

(** [r'(<graph[^>]*>)'] *)
Definition graph_pattern : pattern :=
  [GroupOpen] ++ lit (T "<graph") ++ [StarNot gt] ++ lit [gt] ++ [GroupClose].

(** [r'(<edge[^>]*>)'] *)
Definition first_edge_pattern : pattern :=
  [GroupOpen] ++ lit (T "<edge") ++ [StarNot gt] ++ lit [gt] ++ [GroupClose].

(** ** extract_node_ids_from_xgmml *)

Definition extract_node_ids (content : text) : gset text :=
  let sources := re_findall source_pattern content in
  let targets := re_findall target_pattern content in
  (∅ ∪ list_to_set sources) ∪ list_to_set targets.

Definition extract_node_ids_from_xgmml (xgmml_file : string)
  : M (gset text * text) :=
  content ← read_file xgmml_file;
  ret (extract_node_ids content, content).

(** ** create_node_xml *)

(** The two loops over [items()]: the value of the first entry, in
    insertion order, whose key equals [node_id] once both are uppercased. *)
Fixpoint first_match (items : dict) (node_id : text) : option text :=
  match items with
  | [] => None
  | (key, value) :: items' =>
      if decide (upper key = upper node_id) then Some value
      else first_match items' node_id
  end.

(** A text between double quotes. *)
Definition quoted (s : text) : text := dq :: s ++ [dq].

Definition node_template (node_id seq_length sequence description : text)
  : text :=
  T "  <node id=" ++ quoted node_id ++ T " label=" ++ quoted node_id ++
    T ">" ++ [nl] ++
  T "    <att name=" ++ quoted (T "Sequence Source") ++ T " type=" ++
    quoted (T "string") ++ T " value=" ++ quoted (T "USER") ++ T " />" ++
    [nl] ++
  T "    <att name=" ++ quoted (T "Sequence Length") ++ T " type=" ++
    quoted (T "integer") ++ T " value=" ++ quoted seq_length ++ T " />" ++
    [nl] ++
  T "    <att type=" ++ quoted (T "list") ++ T " name=" ++
    quoted (T "Other IDs") ++ T ">" ++ [nl] ++
  T "      <att type=" ++ quoted (T "string") ++ T " name=" ++
    quoted (T "Other IDs") ++ T " value=" ++ quoted (T "None") ++ T " />" ++
    [nl] ++
  T "    </att>" ++ [nl] ++
  T "    <att name=" ++ quoted (T "Sequence") ++ T " type=" ++
    quoted (T "string") ++ T " value=" ++ quoted sequence ++ T " />" ++
    [nl] ++
  T "    <att type=" ++ quoted (T "list") ++ T " name=" ++
    quoted (T "Description") ++ T ">" ++ [nl] ++
  T "      <att type=" ++ quoted (T "string") ++ T " name=" ++
    quoted (T "Description") ++ T " value=" ++ quoted description ++
    T " />" ++ [nl] ++
  T "    </att>" ++ [nl] ++
  T "  </node>".

Definition create_node_xml (node_id : text) (sequences descriptions : dict)
  : text :=
  let '(sequence, seq_length) :=
    match first_match sequences node_id with
    | Some seq => (seq, length seq)
    | None => ([], 0)
    end in
  let description :=
    match first_match descriptions node_id with
    | Some desc => desc
    | None => T "Unknown"
    end in
  node_template node_id (str_of_nat seq_length) sequence description.

(** ** sorted *)

(** [a <= b] on strings: lexicographic on the code points, a proper prefix
    comes first. *)
Fixpoint text_leb (a b : text) : bool :=
  match a, b with
  | [], _ => true
  | _ :: _, [] => false
  | x :: a', y :: b' =>
      if nat_of_ascii x <? nat_of_ascii y then true
      else if nat_of_ascii y <? nat_of_ascii x then false
      else text_leb a' b'
  end.

Definition text_le (a b : text) : Prop := text_leb a b = true.

#[global] Instance text_le_dec : RelDecision text_le.
Proof. intros a b. unfold text_le. apply _. Defined.

(** [sorted(node_ids)]: the elements of the set in ascending order. *)
Definition sorted (node_ids : gset text) : list text :=
  merge_sort text_le (elements node_ids).

(** ** rebuild_xgmml *)

(** [any(key.upper() == node_id.upper() for key in d.keys())] *)
Definition any_match (d : dict) (node_id : text) : bool :=
  existsb (λ key, bool_decide (upper key = upper node_id)) (map fst d).

(** The body of the loop over the sorted identifiers: the node elements so
    far, the number of nodes added and the number of nodes with missing
    data. *)
Definition node_step (sequences descriptions : dict)
    (acc : list text * nat * nat) (node_id : text) : list text * nat * nat :=
  let '(node_xmls, nodes_added, nodes_missing_data) := acc in
  let node_xml := create_node_xml node_id sequences descriptions in
  let found_seq := any_match sequences node_id in
  let found_desc := any_match descriptions node_id in
  (node_xmls ++ [node_xml], S nodes_added,
   if negb found_seq || negb found_desc
   then S nodes_missing_data else nodes_missing_data).

Definition build_nodes (ids : list text) (sequences descriptions : dict)
  : list text * nat * nat :=
  fold_left (node_step sequences descriptions) ids ([], 0, 0).

Definition rebuild_xgmml
    (xgmml_file fasta_file metadata_file output_file : string)
  : M (nat * nat) :=
  sequences ← parse_fasta fasta_file;
  descriptions ← parse_metadata_tab metadata_file;
  '(node_ids, original_content) ← extract_node_ids_from_xgmml xgmml_file;
  let '(node_xmls, nodes_added, nodes_missing_data) :=
    build_nodes (sorted node_ids) sequences descriptions in
  match re_search graph_pattern original_content with
  | None => raise (ValueError "Could not find <graph> opening tag in XGMML file")
  | Some graph_match =>
      match re_search first_edge_pattern original_content with
      | None =>
          raise (ValueError "Could not find any <edge> elements in XGMML file")
      | Some first_edge_match =>
          let insert_pos := m_start first_edge_match in
          let all_nodes := join [nl] node_xmls ++ [nl] in
          let new_content :=
            take insert_pos original_content ++ all_nodes ++
            drop insert_pos original_content in
          _ ← write_file output_file new_content;
          ret (nodes_added, nodes_missing_data)
      end
  end.

(** ** main

    The command line of [rebuild.py]: [argv] is [sys.argv], the result is
    the exit status of the process, 0 when [main] returns and 1 when it
    calls [sys.exit(1)].  [Path(p).exists()] is the presence of [p] in the
    file system. *)
Definition main (argv : list string) : filesystem → nat * filesystem :=
  λ fs,
    match argv with
    | [_; xgmml_file; fasta_file; metadata_file; output_file] =>
        if forallb (λ file_path, bool_decide (is_Some (fs !! file_path)))
             [xgmml_file; fasta_file; metadata_file]
        then
          match rebuild_xgmml xgmml_file fasta_file metadata_file
                  output_file fs with
          | (inr _, fs') => (0, fs')
          | (inl e, fs') => (1, fs')
          end
        else (1, fs)
    | _ => (1, fs)
    end.

(** * Vocabulary of the properties *)

(** ** Lookups in a mapping *)

(** No key of [items] equals [node_id] once both are uppercased. *)
Definition no_match (items : dict) (node_id : text) : Prop :=
  Forall (λ entry, upper entry.1 ≠ upper node_id) items.

(** [(key, value)] is the first entry of [items], in insertion order, whose
    key equals [node_id] once both are uppercased. *)
Definition first_entry (items : dict) (node_id key value : text) : Prop :=
  ∃ before after,
    items = before ++ (key, value) :: after ∧
    upper key = upper node_id ∧ no_match before node_id.

(** ** What a pattern accepts *)

(** [matches p g w cap]: the pattern [p] can consume exactly the text [w],
    group 1 capturing [cap]; [g] tells whether the group is open at the
    start. *)
Fixpoint matches (p : pattern) (g : bool) (w cap : text) : Prop :=
  match p with
  | [] => w = [] ∧ cap = []
  | GroupOpen :: p' => matches p' true w cap
  | GroupClose :: p' => matches p' false w cap
  | Chr c :: p' =>
      ∃ w' cap', w = c :: w' ∧ cap = (if g then c :: cap' else cap') ∧
                 matches p' g w' cap'
  | StarNot c :: p' =>
      ∃ run w' cap', w = run ++ w' ∧ (c ∉ run) ∧
                     cap = (if g then run else []) ++ cap' ∧
                     matches p' g w' cap'
  end.

(** A pattern that never matches the empty text at a position. *)
Definition consuming (p : pattern) : Prop :=
  ∀ s cap rest, match_here p false s = Some (cap, rest) →
                length rest < length s.

Definition tag_pattern (name : text) : pattern :=
  [GroupOpen] ++ lit (lt_ :: name) ++ [StarNot gt] ++ lit [gt] ++ [GroupClose].

(** The two attribute patterns. *)
Definition attr_pattern (key : text) : pattern :=
  lit (T "<edge") ++ [StarNot gt] ++ lit (key ++ [dq]) ++
  [GroupOpen; StarNot dq; GroupClose] ++ lit [dq].

(** ** Tags and occurrences *)

(** The script finds its two anchors textually: the text [s] opens with a
    tag [name] when it starts with [<], the name, any run of characters
    other than [>], and [>].  The run is not inspected, so a longer element
    name that begins with [name] is an anchor too. *)
Definition opens_tag (name s : text) : Prop :=
  ∃ attrs rest, s = lt_ :: name ++ attrs ++ gt :: rest ∧ gt ∉ attrs.

Definition has_tag (name doc : text) : Prop :=
  ∃ before here, doc = before ++ here ∧ opens_tag name here.

Fixpoint starts_with (w s : text) : bool :=
  match w, s with
  | [], _ => true
  | _ :: _, [] => false
  | c :: w', x :: s' => bool_decide (c = x) && starts_with w' s'
  end.

(** The number of positions of [s] at which [w] starts. *)
Fixpoint occurrences (w s : text) : nat :=
  (if starts_with w s then 1 else 0) +
  match s with
  | [] => 0
  | _ :: s' => occurrences w s'
  end.

(** No edge tag opens inside the text. *)
Definition no_edge_opening (s : text) : Prop := occurrences (T "<edge") s = 0.

(** What may follow a stretch of text between tags: the end of the
    document or the next tag. *)
Definition end_or_tag (next : text) : Prop := next = [] ∨ ∃ n, next = lt_ :: n.

(** ** The block of nodes and the order of the identifiers *)

(** The block spliced into the document. *)
Definition all_nodes (doc : text) (sequences descriptions : dict) : text :=
  join [nl]
    (map (λ node_id, create_node_xml node_id sequences descriptions)
         (sorted (extract_node_ids doc))) ++ [nl].

(** [a < b] on strings. *)
Definition text_lt (a b : text) : Prop := text_le a b ∧ a ≠ b.

(** The node of [node_id] is written with a default: no key of the sequence
    mapping, or no key of the description mapping, matches it. *)
Definition missing_data (sequences descriptions : dict) (node_id : text)
  : Prop :=
  first_match sequences node_id = None ∨
  first_match descriptions node_id = None.

(** The identifiers of a mapping, in insertion order. *)
Definition keys (d : dict) : list text := map fst d.

(** ** Documents made of edge tags *)

(** An edge tag as the extractor sees it: the text between [<edge] and the
    closing [>], the two endpoints it names, and the text that follows the
    tag up to the next edge tag. *)
Record edge : Type := Edge {
  e_body : text;
  e_source : text;
  e_target : text;
  e_after : text
}.

(** The inside of a tag holds the attribute: white space, the name, [=] and
    the quoted value, and the name with [=] and the opening quote stands
    nowhere else in the tag. *)
Definition has_attribute (body name value : text) : Prop :=
  (∃ a c b, isspace c = true ∧
            body = a ++ c :: name ++ T "=" ++ quoted value ++ b) ∧
  (dq ∉ value) ∧
  occurrences (name ++ T "=" ++ [dq]) body = 1.

Definition plain_edge (e : edge) : Prop :=
  (lt_ ∉ e_body e) ∧ (gt ∉ e_body e) ∧ no_edge_opening (e_after e) ∧
  has_attribute (e_body e) (T "source") (e_source e) ∧
  has_attribute (e_body e) (T "target") (e_target e).

Definition edge_text (e : edge) : text :=
  T "<edge" ++ e_body e ++ gt :: e_after e.

Definition edges_doc (head : text) (edges : list edge) : text :=
  head ++ concat (map edge_text edges).

(** ** Edge elements, as the specification reads them *)

(** An edge element written out: [<edge], its attributes, each a space, a
    name, [=] and a quoted value free of double quotes, and [/>]. *)
Definition spec_attribute (a : text * text) : text :=
  sp :: a.1 ++ T "=" ++ quoted a.2.

Definition spec_edge_element (attrs : list (text * text)) : text :=
  T "<edge" ++ concat (map spec_attribute attrs) ++ T "/>".

(** [id] is the value of a source or target attribute of an edge element of
    the document. *)
Definition spec_edge_endpoint (doc id : text) : Prop :=
  ∃ before attrs after name,
    doc = before ++ spec_edge_element attrs ++ after ∧
    (name = T "source" ∨ name = T "target") ∧
    (name, id) ∈ attrs ∧
    Forall (λ a, dq ∉ a.2) attrs.

(** ** Example data *)

(** The sequence file holds the record of P1, the metadata file a header
    and the description of P1, the document one edge from P1 to P1. *)
Definition example_doc : text :=
  T "<graph><edge source=" ++ quoted (T "P1") ++ T " target=" ++
  quoted (T "P1") ++ T "/></graph>".

Definition example_fasta : text :=
  T ">P1" ++ [nl] ++ T "MKV" ++ [nl] ++ T "LST".

Definition example_metadata : text :=
  T "id" ++ [tab] ++ T "attribute" ++ [tab] ++ T "value" ++ [nl] ++
  T "P1" ++ [tab] ++ T "Description" ++ [tab] ++ T "Kinase" ++ [nl].

Definition example_fs (doc : text) : filesystem :=
  <["in.xgmml"%string := doc]>
    (<["seq.fasta"%string := example_fasta]>
       (<["meta.tab"%string := example_metadata]> ∅)).

(** An edge from b to a, then one from B to a: the nodes come out as B, a,
    b. *)
Definition example_two_edges : text :=
  T "<graph><edge source=" ++ quoted (T "b") ++ T " target=" ++
  quoted (T "a") ++ T "/><edge source=" ++ quoted (T "B") ++ T " target=" ++
  quoted (T "a") ++ T "/></graph>".

(** A document whose only edge names no endpoint. *)
Definition example_no_endpoint : text :=
  T "<graph><edge id=" ++ quoted (T "1") ++ T "/></graph>".

(** Three edges naming A and B, then C and A with the target written
    first, then A twice: the reference set is A, B, C. *)
Definition example_edges : list edge :=
  [Edge (T " id=" ++ quoted (T "1") ++ T " source=" ++ quoted (T "A") ++
         T " target=" ++ quoted (T "B") ++ T "/")
        (T "A") (T "B") [nl];
   Edge (T " target=" ++ quoted (T "A") ++ T " source=" ++ quoted (T "C"))
        (T "C") (T "A") (T "</edge>" ++ [nl]);
   Edge (T " source=" ++ quoted (T "A") ++ T " target=" ++ quoted (T "A") ++
         T " /")
        (T "A") (T "A") (T "</graph>")].

Definition example_head : text :=
  T "<graph label=" ++ quoted (T "g") ++ T ">" ++ [nl].

(** * Properties *)

(** Closed decidable goals, by evaluation. *)
Ltac by_decide := apply (bool_decide_unpack _); vm_compute; exact I.

(** ** Splitting and stripping *)

Lemma split_aux_split sep s :
  split sep s = (split_aux sep s).1 :: (split_aux sep s).2.
Proof. unfold split. by destruct (split_aux sep s). Qed.

Lemma split_cons_sep sep s : split sep (sep :: s) = [] :: split sep s.
Proof.
  unfold split; simpl. destruct (split_aux sep s) as [w ws].
  by rewrite decide_True.
Qed.

Lemma split_cons_other sep c s :
  c ≠ sep →
  split sep (c :: s) = (c :: (split_aux sep s).1) :: (split_aux sep s).2.
Proof.
  intros Hc. unfold split; simpl. destruct (split_aux sep s) as [w ws].
  by rewrite decide_False.
Qed.

Lemma split_nil sep : split sep [] = [[]].
Proof. reflexivity. Qed.

(** A text without the separator is one piece. *)
Lemma split_no_sep sep s : sep ∉ s → split sep s = [s].
Proof.
  induction s as [|c s IH]; intros Hs; [done|].
  apply not_elem_of_cons in Hs as [Hc Hs].
  rewrite split_cons_other by done.
  specialize (IH Hs). rewrite split_aux_split in IH.
  destruct (split_aux sep s) as [w ws]; simpl in *. by simplify_eq.
Qed.

(** The piece before the first separator, and the pieces after it. *)
Lemma split_app_sep sep a b :
  sep ∉ a → split sep (a ++ sep :: b) = a :: split sep b.
Proof.
  induction a as [|c a IH]; intros Ha; simpl.
  - apply split_cons_sep.
  - apply not_elem_of_cons in Ha as [Hc Ha].
    rewrite split_cons_other by done.
    specialize (IH Ha). rewrite (split_aux_split sep (a ++ _)) in IH.
    destruct (split_aux sep (a ++ sep :: b)) as [w ws]; simpl in *.
    by simplify_eq.
Qed.

(** The pieces before the last separator, and the piece after it. *)
Lemma split_snoc_piece sep a b :
  sep ∉ b → split sep (a ++ sep :: b) = split sep a ++ [b].
Proof.
  intros Hb. induction a as [|c a IH]; simpl.
  - by rewrite split_cons_sep, split_no_sep.
  - destruct (decide (c = sep)) as [->|Hc].
    + by rewrite !split_cons_sep, IH.
    + rewrite !split_cons_other by done.
      rewrite (split_aux_split sep (a ++ _)), (split_aux_split sep a) in IH.
      destruct (split_aux sep (a ++ sep :: b)) as [w ws].
      destruct (split_aux sep a) as [w' ws']; simpl in *. by simplify_eq.
Qed.

Lemma split_length sep s :
  length (split sep s) = S (length (filter (λ x, x = sep) s)).
Proof.
  induction s as [|c s IH]; [done|].
  destruct (decide (c = sep)) as [->|Hc].
  - rewrite split_cons_sep, filter_cons_True by done. simpl. by rewrite IH.
  - rewrite split_cons_other, filter_cons_False by done.
    rewrite split_aux_split in IH. simpl in *. done.
Qed.

(** Joining the pieces without the separator drops the separators. *)
Lemma concat_split sep s : concat (split sep s) = remove_char sep s.
Proof.
  unfold remove_char. induction s as [|c s IH]; [done|].
  destruct (decide (c = sep)) as [->|Hc].
  - rewrite split_cons_sep. simpl. rewrite filter_cons_False by naive_solver.
    done.
  - rewrite split_cons_other, filter_cons_True by done.
    rewrite split_aux_split in IH. simpl in *. by rewrite IH.
Qed.

Lemma remove_char_idemp c s : remove_char c (remove_char c s) = remove_char c s.
Proof.
  unfold remove_char. induction s as [|x s IH]; [done|].
  destruct (decide (x = c)) as [->|Hx].
  - by rewrite filter_cons_False by naive_solver.
  - rewrite filter_cons_True by done. rewrite filter_cons_True by done.
    by rewrite IH.
Qed.

(** What the three strips remove is whitespace. *)
Lemma lstrip_spec s :
  ∃ ws, s = ws ++ lstrip s ∧ Forall (λ c, isspace c = true) ws.
Proof.
  induction s as [|c s (ws & E & Hws)]; simpl.
  - by exists [].
  - destruct (isspace c) eqn:Hc.
    + exists (c :: ws). split; [by rewrite E at 1 | by constructor].
    + by exists [].
Qed.

Lemma rstrip_spec s :
  ∃ ws, s = rstrip s ++ ws ∧ Forall (λ c, isspace c = true) ws.
Proof.
  unfold rstrip. destruct (lstrip_spec (rev s)) as (ws & E & Hws).
  exists (rev ws). split.
  - rewrite <-rev_app_distr, <-E. by rewrite rev_involutive.
  - apply Forall_forall. intros c Hc%list_elem_of_In%in_rev%list_elem_of_In.
    by eapply Forall_forall in Hws.
Qed.

Lemma strip_spec s :
  ∃ ws1 ws2, s = ws1 ++ strip s ++ ws2 ∧
    Forall (λ c, isspace c = true) ws1 ∧ Forall (λ c, isspace c = true) ws2.
Proof.
  unfold strip. destruct (lstrip_spec s) as (ws1 & E1 & H1).
  destruct (rstrip_spec (lstrip s)) as (ws2 & E2 & H2).
  exists ws1, ws2. by rewrite <-E2.
Qed.

(** Stripping a line never adds a field. *)
Lemma split_strip_length sep s :
  length (split sep (strip s)) ≤ length (split sep s).
Proof.
  rewrite !split_length. destruct (strip_spec s) as (ws1 & ws2 & E & _).
  rewrite E at 2. rewrite !filter_app, !length_app. lia.
Qed.

(** ** Dictionaries *)

Lemma dict_get_set_eq d k v : dict_get (dict_set d k v) k = Some v.
Proof.
  induction d as [|[k' v'] d IH]; simpl.
  - by rewrite decide_True.
  - destruct (decide (k' = k)) as [->|Hk]; simpl.
    + by rewrite decide_True.
    + by rewrite decide_False.
Qed.

Lemma dict_get_set_ne d k k' v :
  k' ≠ k → dict_get (dict_set d k v) k' = dict_get d k'.
Proof.
  intros Hne. induction d as [|[k0 v0] d IH]; simpl.
  - by rewrite decide_False.
  - destruct (decide (k0 = k)) as [->|Hk]; simpl.
    + by rewrite !decide_False.
    + destruct (decide (k0 = k')); done.
Qed.

(** ** The annotation parser *)

Lemma parse_metadata_lines_snoc hdr rows line :
  parse_metadata_lines (hdr :: rows ++ [line]) =
  metadata_line (parse_metadata_lines (hdr :: rows)) line.
Proof. unfold parse_metadata_lines; simpl. by rewrite fold_left_app. Qed.

Lemma metadata_line_short d line :
  length (split tab (strip line)) < 3 → metadata_line d line = d.
Proof.
  unfold metadata_line.
  destruct (split tab (strip line)) as [|? [|? [|? ?]]]; simpl; [done..|lia].
Qed.

Lemma metadata_line_fields d line seq_id attribute value :
  split tab (strip line) !! 0 = Some seq_id →
  split tab (strip line) !! 1 = Some attribute →
  split tab (strip line) !! 2 = Some value →
  metadata_line d line =
    if decide (attribute = T "Description") then dict_set d seq_id value else d.
Proof.
  unfold metadata_line.
  destruct (split tab (strip line)) as [|? [|? [|? ?]]]; simpl; try done.
  by intros [= ->] [= ->] [= ->].
Qed.



(** ** The sequence-source parser *)

Lemma split_not_nil sep s : split sep s ≠ [].
Proof. by rewrite split_aux_split. Qed.

Lemma parse_fasta_text_snoc content entry :
  gt ∉ entry →
  parse_fasta_text (content ++ gt :: entry) =
  fasta_entry (parse_fasta_text content) entry.
Proof.
  intros Hgt. unfold parse_fasta_text.
  rewrite split_snoc_piece by done.
  pose proof (split_not_nil gt content).
  destruct (split gt content) as [|w ws]; [done|]; simpl.
  by rewrite fold_left_app.
Qed.

Lemma lstrip_all_space s : Forall (λ c, isspace c = true) s → lstrip s = [].
Proof. induction 1 as [|c s Hc _ IH]; simpl; [done|by rewrite Hc]. Qed.

Lemma strip_all_space s : Forall (λ c, isspace c = true) s → strip s = [].
Proof. intros Hs. unfold strip. by rewrite lstrip_all_space. Qed.

(** C7. A record that holds nothing but whitespace is not skipped: the
    guard on the list of lines never fails, because splitting the empty
    text gives one empty line, and the parser stores the empty identifier
    with the empty sequence. *)
Theorem parse_fasta_blank_record (content entry : text) :
  gt ∉ entry →
  Forall (λ c, isspace c = true) entry →
  dict_get (parse_fasta_text (content ++ gt :: entry)) [] = Some [].
Proof.
  intros Hgt Hblank. rewrite parse_fasta_text_snoc by done.
  unfold fasta_entry. rewrite strip_all_space by done.
  simpl. apply dict_get_set_eq.
Qed.

(** The file ends with a marker on a line of its own, behind the record of
    P1. *)
Lemma parse_fasta_blank_record_witness :
  parse_fasta_text (T ">P1" ++ [nl] ++ T "MKV" ++ [nl] ++ T ">" ++ [nl])
    = [(T "P1", T "MKV"); ([], [])] ∧
  dict_get
    (parse_fasta_text ((T ">P1" ++ [nl] ++ T "MKV" ++ [nl]) ++ gt :: [nl])) []
    = Some [].
Proof.
  split; [by vm_compute|].
  apply (parse_fasta_blank_record (T ">P1" ++ [nl] ++ T "MKV" ++ [nl]) [nl]).
  - by_decide.
  - by_decide.
Defined.

(** A record with a visible character gets a non-empty identifier. *)
Lemma lstrip_not_nil s :
  Exists (λ c, isspace c = false) s → lstrip s ≠ [].
Proof.
  induction 1 as [c s Hc|c s _ IH]; simpl.
  - by rewrite Hc.
  - by destruct (isspace c).
Qed.

Lemma lstrip_head s c t : lstrip s = c :: t → isspace c = false.
Proof.
  induction s as [|x s IH]; simpl; [done|].
  destruct (isspace x) eqn:Hx; [done|]. by intros [= <- _].
Qed.

Lemma lstrip_snoc s c :
  isspace c = false → ∃ t, lstrip (s ++ [c]) = t ++ [c].
Proof.
  intros Hc. induction s as [|x s IH]; simpl.
  - rewrite Hc. by exists [].
  - destruct (isspace x); [done|]. by exists (x :: s).
Qed.

Lemma rstrip_cons c s : isspace c = false → ∃ t, rstrip (c :: s) = c :: t.
Proof.
  intros Hc. unfold rstrip. simpl.
  destruct (lstrip_snoc (rev s) c Hc) as [t ->].
  rewrite rev_app_distr. simpl. eauto.
Qed.

Lemma strip_visible s :
  Exists (λ c, isspace c = false) s →
  ∃ c t, strip s = c :: t ∧ isspace c = false.
Proof.
  intros Hs%lstrip_not_nil. unfold strip.
  destruct (lstrip s) as [|c t] eqn:E; [done|].
  apply lstrip_head in E. destruct (rstrip_cons c t E) as [u ->]. eauto.
Qed.

Lemma fasta_entry_visible sequences entry :
  Exists (λ c, isspace c = false) entry →
  ∃ header sequence,
    header ≠ [] ∧ fasta_entry sequences entry
                  = dict_set sequences header sequence.
Proof.
  intros (c & t & E & Hc)%strip_visible. unfold fasta_entry. rewrite E.
  assert (c ≠ nl) as Hnl by (by intros ->).
  rewrite split_cons_other by done. lazy beta iota zeta.
  destruct (strip_visible (c :: (split_aux nl t).1)) as (c' & t' & -> & _);
    [by constructor|].
  eexists (c' :: t'), _. by split.
Qed.




(** ** The node synthesizer *)

Lemma first_match_Some items node_id value :
  first_match items node_id = Some value ↔
  ∃ key, first_entry items node_id key value.
Proof.
  induction items as [|[k v] items IH]; simpl.
  - split; [done|]. intros (key & before & after & E & _).
    by destruct before.
  - destruct (decide (upper k = upper node_id)) as [Hk|Hk].
    + split.
      * intros [= ->]. exists k, [], items. repeat split; [done|constructor].
      * intros (key & [|[k' v'] before] & after & E & Hkey & Hno).
        -- by simplify_eq/=.
        -- simplify_eq/=. by inversion Hno.
    + rewrite IH. split.
      * intros (key & before & after & -> & Hkey & Hno).
        exists key, ((k, v) :: before), after.
        repeat split; [done|by constructor].
      * intros (key & [|[k' v'] before] & after & E & Hkey & Hno).
        -- by simplify_eq/=.
        -- simplify_eq/=. inversion Hno; subst. by exists key, before, after.
Qed.

Lemma first_match_None items node_id :
  first_match items node_id = None ↔ no_match items node_id.
Proof.
  unfold no_match. induction items as [|[k v] items IH]; simpl.
  - split; [constructor|done].
  - destruct (decide (upper k = upper node_id)) as [Hk|Hk].
    + split; [done|]. by inversion 1.
    + rewrite IH. split; [by constructor|by inversion 1].
Qed.

(** The element opens with the identifier, quoted, as id and as label. *)
Lemma node_template_head node_id seq_length sequence description :
  ∃ rest,
    node_template node_id seq_length sequence description
      = T "  <node id=" ++ [dq] ++ node_id ++ [dq] ++ T " label=" ++ [dq] ++
        node_id ++ [dq] ++ T ">" ++ rest.
Proof.
  eexists. unfold node_template, quoted. rewrite <-?app_assoc. simpl.
  rewrite <-?app_assoc. simpl. reflexivity.
Qed.

Lemma create_node_xml_head node_id sequences descriptions :
  ∃ rest,
    create_node_xml node_id sequences descriptions
      = T "  <node id=" ++ [dq] ++ node_id ++ [dq] ++ T " label=" ++ [dq] ++
        node_id ++ [dq] ++ T ">" ++ rest.
Proof.
  unfold create_node_xml.
  destruct (first_match sequences node_id);
    destruct (first_match descriptions node_id); apply node_template_head.
Qed.


(** The identifier abc123 of the reference set matches the header ABC123
    and the metadata identifier Abc123; the node shows their data under
    the identifier as the edges spell it. *)
Example create_node_xml_case_insensitive :
  create_node_xml (T "abc123")
    [(T "XYZ", T "AAAA"); (T "ABC123", T "MKV"); (T "abc123", T "LST")]
    [(T "Abc123", T "Kinase")]
  = node_template (T "abc123") (T "3") (T "MKV") (T "Kinase").
Proof. by vm_compute. Qed.

(** ** What the matcher accepts *)

Lemma consume_Some g x r cap rest :
  consume g x r = Some (cap, rest) →
  ∃ cap', r = Some (cap', rest) ∧ cap = if g then x :: cap' else cap'.
Proof. destruct r as [[cap' rest']|]; simpl; [|done]. intros [= <- <-]. eauto. Qed.

Section star.
Context (c : ascii) (g : bool) (k : text → option (text * text)).
Context (Q : text → text → Prop).

Lemma star_sound s cap rest :
  (∀ s cap rest, k s = Some (cap, rest) → ∃ w, s = w ++ rest ∧ Q w cap) →
  star c g k s = Some (cap, rest) →
  ∃ run w cap', s = run ++ w ++ rest ∧ (c ∉ run) ∧
    cap = (if g then run else []) ++ cap' ∧ Q w cap'.
Proof.
  intros Hk. revert cap. induction s as [|x s IH]; intros cap; simpl.
  - intros (w & E & HQ)%Hk. exists [], w, cap.
    split_and!; [done|apply not_elem_of_nil|by destruct g|done].
  - assert (k (x :: s) = Some (cap, rest) →
            ∃ run w cap', x :: s = run ++ w ++ rest ∧ (c ∉ run) ∧
              cap = (if g then run else []) ++ cap' ∧ Q w cap') as Hstop.
    { intros (w & E & HQ)%Hk. exists [], w, cap.
      split_and!; [done|apply not_elem_of_nil|by destruct g|done]. }
    destruct (decide (x = c)) as [->|Hx]; [done|].
    destruct (consume g x (star c g k s)) as [[cap1 rest1]|] eqn:Hc;
      [|done].
    intros [= -> ->]. apply consume_Some in Hc as (cap' & Hs & ->).
    apply IH in Hs as (run & w & cap'' & -> & Hrun & -> & HQ).
    exists (x :: run), w, cap''.
    split_and!; [done| |by destruct g|done].
    apply not_elem_of_cons; split; [congruence|done].
Qed.

Lemma star_complete run s :
  c ∉ run → is_Some (k s) → is_Some (star c g k (run ++ s)).
Proof.
  intros Hrun Hk. induction run as [|x run IH]; simpl.
  - destruct s as [|x s]; simpl; [done|].
    destruct (decide (x = c)); [done|].
    by destruct (consume g x (star c g k s)) as [r|].
  - apply not_elem_of_cons in Hrun as [Hx Hrun].
    rewrite decide_False by done.
    destruct (IH Hrun) as [[cap rest] ->]. simpl. eauto.
Qed.
End star.

Lemma match_here_sound p g s cap rest :
  match_here p g s = Some (cap, rest) →
  ∃ w, s = w ++ rest ∧ matches p g w cap.
Proof.
  revert g s cap rest.
  induction p as [|[c|c| |] p IH]; intros g s cap rest; simpl.
  - intros [= <- <-]. by exists [].
  - destruct s as [|x s]; [done|]. destruct (decide (x = c)) as [->|]; [|done].
    intros (cap' & (w & -> & Hm)%IH & ->)%consume_Some.
    exists (c :: w). split; [done|]. by exists w, cap'.
  - intros H. eapply (star_sound c g _ (matches p g)) in H;
      [|intros ???; apply IH].
    destruct H as (run & w & cap' & -> & Hrun & -> & Hm).
    exists (run ++ w). split; [by rewrite app_assoc|]. by exists run, w, cap'.
  - apply IH.
  - apply IH.
Qed.

Lemma match_here_complete p g w cap rest :
  matches p g w cap → is_Some (match_here p g (w ++ rest)).
Proof.
  revert g w cap. induction p as [|[c|c| |] p IH]; intros g w cap; simpl.
  - by intros [-> ->].
  - intros (w' & cap' & -> & -> & Hm). simpl. rewrite decide_True by done.
    destruct (IH _ _ _ Hm) as [[cap1 rest1] ->]. simpl. eauto.
  - intros (run & w' & cap' & -> & Hrun & -> & Hm). rewrite <-app_assoc.
    apply star_complete; [done|]. by eapply IH.
  - apply IH.
  - apply IH.
Qed.

Lemma matches_lit s p g w cap :
  matches (lit s ++ p) g w cap ↔
  ∃ w' cap', w = s ++ w' ∧ cap = (if g then s else []) ++ cap' ∧
             matches p g w' cap'.
Proof.
  revert w cap. induction s as [|c s IH]; intros w cap; simpl.
  - split; [intros H; exists w, cap; by destruct g|].
    intros (w' & cap' & -> & -> & H). by destruct g.
  - split.
    + intros (w' & cap' & -> & -> & (w'' & cap'' & -> & -> & H)%IH).
      exists w'', cap''. by destruct g.
    + intros (w' & cap' & -> & -> & H). exists (s ++ w'),
        ((if g then s else []) ++ cap').
      split_and!; [done|by destruct g|]. apply IH. eauto.
Qed.

(** ** Searching *)

Lemma re_search_Some p s m :
  re_search p s = Some m →
  ∃ before here,
    s = before ++ here ∧ length before = m_start m ∧
    match_here p false here = Some (m_group1 m, m_rest m) ∧
    ∀ before' here', s = before' ++ here' →
      length before' < length before → match_here p false here' = None.
Proof.
  revert m. induction s as [|x s IH]; intros m; simpl.
  - destruct (match_here p false []) as [[cap rest]|] eqn:E; [|done].
    intros [= <-]. exists [], []. split_and!; try done.
    intros; simpl in *; lia.
  - destruct (match_here p false (x :: s)) as [[cap rest]|] eqn:E.
    + intros [= <-]. exists [], (x :: s). split_and!; try done.
      intros; simpl in *; lia.
    + destruct (re_search p s) as [m'|]; [|done]. simpl. intros [= <-].
      destruct (IH m' eq_refl) as (before & here & -> & Hlen & Hm & Hleft).
      exists (x :: before), here. split_and!; simpl; [done|by rewrite Hlen|done|].
      intros [|y before'] here' E' Hlt; simpl in *.
      * by subst here'.
      * injection E' as -> E'. apply (Hleft before'); [done|lia].
Qed.

Lemma re_search_None p s :
  re_search p s = None ↔
  ∀ before here, s = before ++ here → match_here p false here = None.
Proof.
  induction s as [|x s IH]; simpl.
  - destruct (match_here p false []) as [[cap rest]|] eqn:E.
    + split; [done|]. intros H. by rewrite (H [] []) in E.
    + split; [|done]. intros _ [|] [|]; by try done.
  - destruct (match_here p false (x :: s)) as [[cap rest]|] eqn:E.
    + split; [done|]. intros H. by rewrite (H [] (x :: s)) in E.
    + destruct (re_search p s) as [m'|]; simpl.
      * split; [done|]. intros H. destruct IH as [_ IH].
        discriminate IH. intros before here ->. by apply (H (x :: before)).
      * split; [|done]. intros _ [|y before] here E'; simpl in *.
        -- by subst here.
        -- injection E' as -> ->. destruct IH as [IH _].
           by apply (IH eq_refl before).
Qed.

(** ** Tags, as the script recognizes them *)

Lemma graph_pattern_tag : graph_pattern = tag_pattern (T "graph").
Proof. reflexivity. Qed.

Lemma first_edge_pattern_tag : first_edge_pattern = tag_pattern (T "edge").
Proof. reflexivity. Qed.

Lemma matches_tag_pattern name w cap :
  matches (tag_pattern name) false w cap ↔
  ∃ attrs, w = lt_ :: name ++ attrs ++ [gt] ∧ (gt ∉ attrs) ∧ cap = w.
Proof.
  unfold tag_pattern. cbn [app matches]. rewrite matches_lit. split.
  - intros (w' & cap' & -> & -> &
            run & w'' & cap'' & -> & Hrun & -> &
            w3 & cap3 & -> & -> & -> & ->).
    exists run. split_and!; [done..|]. simpl. by rewrite <-?app_assoc.
  - intros (attrs & -> & Hattrs & ->).
    exists (attrs ++ [gt]), (attrs ++ [gt]). split_and!; [done..|].
    exists attrs, [gt], [gt]. split_and!; [done..|].
    exists [], []. by split_and!.
Qed.

Lemma match_tag name s :
  is_Some (match_here (tag_pattern name) false s) ↔ opens_tag name s.
Proof.
  split.
  - intros [[cap rest] (w & -> & Hm)%match_here_sound].
    apply matches_tag_pattern in Hm as (attrs & -> & Hattrs & _).
    exists attrs, rest. split; [|done]. simpl. by rewrite <-?app_assoc.
  - intros (attrs & rest & -> & Hattrs).
    replace (lt_ :: name ++ attrs ++ gt :: rest)
      with ((lt_ :: name ++ attrs ++ [gt]) ++ rest)
      by (simpl; by rewrite <-?app_assoc).
    eapply match_here_complete, matches_tag_pattern. eauto.
Qed.

(** A search for a tag fails exactly on the texts without the tag, and
    otherwise stops at the first place where the tag opens. *)
Lemma search_tag_None name doc :
  re_search (tag_pattern name) doc = None ↔ ¬ has_tag name doc.
Proof.
  rewrite re_search_None. split.
  - intros H (before & here & -> & Htag%match_tag).
    rewrite (H before here) in Htag; [by destruct Htag|done].
  - intros H before here ->. apply eq_None_not_Some.
    intros Htag%match_tag. apply H. by exists before, here.
Qed.

Lemma search_tag_Some name doc m :
  re_search (tag_pattern name) doc = Some m →
  take (m_start m) doc ++ drop (m_start m) doc = doc ∧
  opens_tag name (drop (m_start m) doc) ∧
  ∀ before here, doc = before ++ here →
    length before < length (take (m_start m) doc) → ¬ opens_tag name here.
Proof.
  intros (before & here & -> & Hlen & Hm & Hleft)%re_search_Some.
  rewrite <-Hlen, take_app_length, drop_app_length.
  split_and!; [done| |].
  - apply match_tag. by rewrite Hm.
  - intros before' here' E Hlt Htag%match_tag.
    rewrite (Hleft before' here') in Htag; [by destruct Htag|done..].
Qed.

Lemma search_tag_is_Some name doc :
  has_tag name doc → is_Some (re_search (tag_pattern name) doc).
Proof.
  intros Htag. destruct (re_search _ doc) eqn:E; [done|].
  by apply search_tag_None in E.
Qed.

(** ** The composer *)

Lemma node_step_xmls ids sequences descriptions acc :
  (fold_left (node_step sequences descriptions) ids acc).1.1 =
  acc.1.1 ++
  map (λ node_id, create_node_xml node_id sequences descriptions) ids.
Proof.
  revert acc. induction ids as [|id ids IH]; intros [[xmls a] b]; simpl.
  - by rewrite app_nil_r.
  - rewrite IH. simpl. by rewrite <-app_assoc.
Qed.

Lemma build_nodes_xmls ids sequences descriptions :
  (build_nodes ids sequences descriptions).1.1 =
  map (λ node_id, create_node_xml node_id sequences descriptions) ids.
Proof. unfold build_nodes. by rewrite node_step_xmls. Qed.

(** One run of the composer on three files that exist. *)
Lemma rebuild_xgmml_run fs xgmml_file fasta_file metadata_file output_file
    doc fasta metadata :
  fs !! xgmml_file = Some doc →
  fs !! fasta_file = Some fasta →
  fs !! metadata_file = Some metadata →
  ∃ report,
  rebuild_xgmml xgmml_file fasta_file metadata_file output_file fs =
    match re_search graph_pattern doc with
    | None =>
        (inl (ValueError "Could not find <graph> opening tag in XGMML file"),
         fs)
    | Some _ =>
        match re_search first_edge_pattern doc with
        | None =>
            (inl (ValueError
                    "Could not find any <edge> elements in XGMML file"), fs)
        | Some m =>
            (inr report,
             <[output_file :=
                 take (m_start m) doc ++
                 all_nodes doc (parse_fasta_text fasta)
                   (parse_metadata_text metadata) ++
                 drop (m_start m) doc]> fs)
        end
    end.
Proof.
  intros Hx Hf Hm.
  pose proof (build_nodes_xmls (sorted (extract_node_ids doc))
    (parse_fasta_text fasta) (parse_metadata_text metadata)) as Hxmls.
  unfold rebuild_xgmml, parse_fasta, parse_metadata_tab,
    extract_node_ids_from_xgmml, all_nodes.
  unfold mbind, M_bind, bind, mret, M_ret, ret, raise, read_file, write_file.
  rewrite Hf, Hm, Hx.
  destruct (build_nodes _ _ _) as [[xmls added] missing]. simpl in Hxmls.
  subst xmls. exists (added, missing).
  destruct (re_search graph_pattern doc); [|done].
  by destruct (re_search first_edge_pattern doc).
Qed.

Lemma search_tag_has name doc :
  is_Some (re_search (tag_pattern name) doc) → has_tag name doc.
Proof.
  intros [m Hm]. destruct (search_tag_Some _ _ _ Hm) as (E & Htag & _).
  by exists (take (m_start m) doc), (drop (m_start m) doc).
Qed.

(** The composer on a document with both anchors: the block goes in front
    of the first place where an edge tag opens. *)
Lemma rebuild_xgmml_success fs xgmml_file fasta_file metadata_file output_file
    doc fasta metadata :
  fs !! xgmml_file = Some doc →
  fs !! fasta_file = Some fasta →
  fs !! metadata_file = Some metadata →
  has_tag (T "graph") doc →
  has_tag (T "edge") doc →
  ∃ pre suf report,
    rebuild_xgmml xgmml_file fasta_file metadata_file output_file fs =
      (inr report,
       <[output_file :=
           pre ++ all_nodes doc (parse_fasta_text fasta)
                    (parse_metadata_text metadata) ++ suf]> fs) ∧
    pre ++ suf = doc ∧
    opens_tag (T "edge") suf ∧
    ∀ pre' suf', doc = pre' ++ suf' → length pre' < length pre →
      ¬ opens_tag (T "edge") suf'.
Proof.
  intros Hx Hf Hm Hgraph Hedge.
  destruct (rebuild_xgmml_run fs _ _ _ output_file _ _ _ Hx Hf Hm)
    as [report Hrun].
  apply search_tag_is_Some in Hgraph as [gm Hgm].
  apply search_tag_is_Some in Hedge as [em Hem].
  rewrite graph_pattern_tag, Hgm, first_edge_pattern_tag, Hem in Hrun.
  apply search_tag_Some in Hem as (E & Htag & Hleft).
  by exists (take (m_start em) doc), (drop (m_start em) doc), report.
Qed.



(** ** Worked example *)

Example rebuild_xgmml_example :
  rebuild_xgmml "in.xgmml" "seq.fasta" "meta.tab" "out.xgmml"
    (example_fs example_doc) =
  (inr (1, 0),
   <["out.xgmml"%string :=
       T "<graph>" ++
       node_template (T "P1") (T "6") (T "MKVLST") (T "Kinase") ++ [nl] ++
       T "<edge source=" ++ quoted (T "P1") ++ T " target=" ++
       quoted (T "P1") ++ T "/></graph>"]> (example_fs example_doc)).
Proof. by vm_compute. Qed.



(** ** The order of the identifiers *)

Lemma nat_of_ascii_inj x y : nat_of_ascii x = nat_of_ascii y → x = y.
Proof.
  intros H. rewrite <-(ascii_nat_embedding x), <-(ascii_nat_embedding y).
  by rewrite H.
Qed.

#[global] Instance text_le_refl : Reflexive text_le.
Proof.
  intros a. unfold text_le. induction a as [|x a IH]; simpl; [done|].
  by rewrite Nat.ltb_irrefl.
Qed.

#[global] Instance text_le_total : Total text_le.
Proof.
  intros a. unfold text_le.
  induction a as [|x a IH]; intros [|y b]; simpl; auto.
  destruct (Nat.ltb_spec (nat_of_ascii x) (nat_of_ascii y));
    destruct (Nat.ltb_spec (nat_of_ascii y) (nat_of_ascii x)); auto.
Qed.

#[global] Instance text_le_antisym : AntiSymm (=) text_le.
Proof.
  intros a. unfold text_le.
  induction a as [|x a IH]; intros [|y b]; simpl; try done.
  destruct (Nat.ltb_spec (nat_of_ascii x) (nat_of_ascii y));
    destruct (Nat.ltb_spec (nat_of_ascii y) (nat_of_ascii x));
    try done; try lia.
  intros Hab Hba. f_equal; [apply nat_of_ascii_inj; lia|by apply IH].
Qed.

#[global] Instance text_le_trans : Transitive text_le.
Proof.
  intros a. unfold text_le.
  induction a as [|x a IH]; intros [|y b] [|z c]; simpl; try done.
  destruct (Nat.ltb_spec (nat_of_ascii x) (nat_of_ascii y));
    destruct (Nat.ltb_spec (nat_of_ascii y) (nat_of_ascii x));
    destruct (Nat.ltb_spec (nat_of_ascii y) (nat_of_ascii z));
    destruct (Nat.ltb_spec (nat_of_ascii z) (nat_of_ascii y));
    destruct (Nat.ltb_spec (nat_of_ascii x) (nat_of_ascii z));
    destruct (Nat.ltb_spec (nat_of_ascii z) (nat_of_ascii x));
    try done; try lia.
  apply IH.
Qed.

Lemma StronglySorted_strict (l : list text) :
  StronglySorted text_le l → NoDup l → StronglySorted text_lt l.
Proof.
  induction 1 as [|x l Hl IH Hx]; intros Hnd; [constructor|].
  apply NoDup_cons in Hnd as [Hnotin Hnd]. constructor; [by apply IH|].
  apply Forall_forall. intros y Hy. split.
  - by eapply Forall_forall in Hx.
  - by intros ->.
Qed.

Lemma sorted_elem_of ids id : id ∈ sorted ids ↔ id ∈ ids.
Proof. unfold sorted. by rewrite merge_sort_Permutation, elem_of_elements. Qed.

Lemma sorted_ascending ids : StronglySorted text_lt (sorted ids).
Proof.
  apply StronglySorted_strict.
  - apply StronglySorted_merge_sort; apply _.
  - unfold sorted. rewrite merge_sort_Permutation. apply NoDup_elements.
Qed.

(** An ascending list is determined by its elements. *)
Lemma ascending_unique (l1 l2 : list text) :
  StronglySorted text_lt l1 → StronglySorted text_lt l2 →
  (∀ id, id ∈ l1 ↔ id ∈ l2) → l1 = l2.
Proof.
  intros H1 H2 Hel.
  assert (∀ l, StronglySorted text_lt l →
               StronglySorted text_le l ∧ NoDup l) as Hsplit.
  { induction 1 as [|x l Hl [IHs IHn] Hx]; [split; constructor|].
    split.
    - constructor; [done|]. eapply Forall_impl; [done|]. by intros ? [].
    - constructor; [|done]. intros Hin.
      eapply Forall_forall in Hx as [_ Hne]; done. }
  destruct (Hsplit _ H1) as [Hs1 Hn1]. destruct (Hsplit _ H2) as [Hs2 Hn2].
  apply (StronglySorted_unique text_le); [done..|].
  by apply NoDup_Permutation.
Qed.

Lemma sorted_empty : sorted ∅ = [].
Proof. unfold sorted. by rewrite elements_empty. Qed.



Example sorted_example :
  sorted (extract_node_ids example_two_edges) = [T "B"; T "a"; T "b"].
Proof. by vm_compute. Qed.



(** ** The reference extractor *)

Lemma source_pattern_attr : source_pattern = attr_pattern (T "source=").
Proof. reflexivity. Qed.

Lemma target_pattern_attr : target_pattern = attr_pattern (T "target=").
Proof. reflexivity. Qed.

Lemma matches_attr_pattern key w cap :
  matches (attr_pattern key) false w cap ↔
  ∃ attrs, w = T "<edge" ++ attrs ++ key ++ [dq] ++ cap ++ [dq] ∧
           (gt ∉ attrs) ∧ (dq ∉ cap).
Proof.
  unfold attr_pattern. rewrite matches_lit. cbn [app matches].
  split.
  - intros (w1 & cap1 & -> & -> & run & w2 & cap2 & -> & Hrun & -> & Hm).
    apply matches_lit in Hm as (w3 & cap3 & -> & -> & Hm).
    cbn [app matches] in Hm.
    destruct Hm as (val & w4 & cap4 & -> & Hval & -> &
                    w5 & cap5 & -> & -> & -> & ->).
    exists run. split_and!; [|done|by rewrite !app_nil_r].
    simpl. by rewrite <-?app_assoc, ?app_nil_r.
  - intros (attrs & -> & Hattrs & Hcap).
    eexists _, cap. split_and!; [done|done|].
    exists attrs, (key ++ [dq] ++ cap ++ [dq]), cap. split_and!; [done..|].
    rewrite app_assoc. apply matches_lit. eexists _, cap.
    split_and!; [done..|]. cbn [app matches].
    exists cap, [dq], []. split_and!; [done|done|by rewrite app_nil_r|].
    by exists [], [].
Qed.

(** A match of an attribute pattern: an edge opening, a run without [>],
    the key and a double quote, the captured value free of double quotes,
    a double quote. *)
Lemma match_attr_sound key s cap rest :
  match_here (attr_pattern key) false s = Some (cap, rest) →
  ∃ attrs, s = T "<edge" ++ attrs ++ key ++ [dq] ++ cap ++ [dq] ++ rest ∧
           (gt ∉ attrs) ∧ (dq ∉ cap).
Proof.
  intros (w & -> & Hm)%match_here_sound.
  apply matches_attr_pattern in Hm as (attrs & -> & Hattrs & Hcap).
  exists attrs. split_and!; [|done..]. by rewrite <-?app_assoc.
Qed.

Lemma findall_from_sound fuel p s x :
  x ∈ findall_from fuel p s →
  ∃ before here rest,
    s = before ++ here ∧ match_here p false here = Some (x, rest).
Proof.
  revert s. induction fuel as [|fuel IH]; intros s; simpl.
  - by intros ?%elem_of_nil.
  - destruct (re_search p s) as [m|] eqn:Hs; [|by intros ?%elem_of_nil].
    apply re_search_Some in Hs as (before & here & -> & _ & Hm & _).
    intros [->|Hin]%elem_of_cons; [by eauto|].
    apply IH in Hin as (before' & here' & rest' & Hrest & Hm').
    apply match_here_sound in Hm as (w & -> & _).
    exists (before ++ w ++ before'), here', rest'.
    split; [|done]. rewrite Hrest. by rewrite <-!app_assoc.
Qed.

Lemma extract_node_ids_elem_of doc id :
  id ∈ extract_node_ids doc ↔
  id ∈ re_findall source_pattern doc ∨ id ∈ re_findall target_pattern doc.
Proof.
  unfold extract_node_ids.
  rewrite !elem_of_union, !elem_of_list_to_set, elem_of_empty. tauto.
Qed.

(** Every identifier of the reference set stands in the document behind an
    edge opening, with no [>] in between, as the quoted value of a
    [source=] or a [target=]. *)
Lemma extract_node_ids_sound doc id :
  id ∈ extract_node_ids doc →
  ∃ key before attrs rest,
    (key = T "source=" ∨ key = T "target=") ∧
    doc = before ++ T "<edge" ++ attrs ++ key ++ quoted id ++ rest ∧
    (gt ∉ attrs) ∧ (dq ∉ id).
Proof.
  rewrite extract_node_ids_elem_of. unfold re_findall.
  intros [Hin|Hin]; apply findall_from_sound in Hin
    as (before & here & rest & -> & (attrs & -> & ? & ?)%match_attr_sound);
    [exists (T "source=") | exists (T "target=")];
    exists before, attrs, rest; split_and!; auto;
    unfold quoted; simpl; by rewrite <-?app_assoc.
Qed.

(** The repetition is greedy: of two candidates in one tag the later one
    is captured. *)
Example re_findall_takes_last :
  re_findall source_pattern
    (T "<edge source=" ++ quoted (T "A") ++ T " source=" ++ quoted (T "B") ++
     T ">")
  = [T "B"].
Proof. by vm_compute. Qed.

(** Attributes of other elements are not collected. *)
Example extract_node_ids_other_element :
  extract_node_ids
    (T "<node source=" ++ quoted (T "X") ++ T "/><edge target=" ++
     quoted (T "B") ++ T " source=" ++ quoted (T "A") ++ T "/>")
  = {[ T "A"; T "B" ]}.
Proof. by vm_compute. Qed.

(** C10. No identifier of the reference set holds a double quote, so in the
    node element, where the identifier is written between double quotes,
    the quote that follows it is the closing one of the template. *)
Theorem extract_node_ids_no_quote (doc id : text) :
  id ∈ extract_node_ids doc →
  (dq ∉ id) ∧
  ∀ sequences descriptions,
    ∃ rest,
      create_node_xml id sequences descriptions
        = T "  <node id=" ++ [dq] ++ id ++ [dq] ++ T " label=" ++ [dq] ++
          id ++ [dq] ++ T ">" ++ rest.
Proof.
  intros (?&?&?&?&?&?&?&?)%extract_node_ids_sound. split; [done|].
  intros sequences descriptions. apply create_node_xml_head.
Qed.

Lemma extract_node_ids_no_quote_witness :
  T "P1" ∈ extract_node_ids example_doc ∧ dq ∉ T "P1".
Proof.
  assert (T "P1" ∈ extract_node_ids example_doc) as Hin by by_decide.
  split; [done|].
  by apply (extract_node_ids_no_quote example_doc).
Defined.

(** ** Running [findall] *)

Lemma attr_pattern_consuming key : consuming (attr_pattern key).
Proof.
  intros s cap rest (attrs & -> & _)%match_attr_sound.
  rewrite !length_app. simpl. lia.
Qed.

Lemma re_search_rest_shorter p s m :
  consuming p → re_search p s = Some m → length (m_rest m) < length s.
Proof.
  intros Hp (before & here & -> & _ & Hm%Hp & _)%re_search_Some.
  rewrite length_app. lia.
Qed.

(** Enough fuel is as good as more fuel. *)
Lemma findall_from_fuel p n n' s :
  consuming p → length s < n → length s < n' →
  findall_from n p s = findall_from n' p s.
Proof.
  intros Hp. revert n' s. induction n as [|n IH]; intros [|n'] s Hn Hn';
    [lia..|]. simpl.
  destruct (re_search p s) as [m|] eqn:Hs; [|done].
  pose proof (re_search_rest_shorter _ _ _ Hp Hs). f_equal. apply IH; lia.
Qed.

Lemma re_findall_unfold p s :
  consuming p →
  re_findall p s =
    match re_search p s with
    | None => []
    | Some m => m_group1 m :: re_findall p (m_rest m)
    end.
Proof.
  intros Hp. unfold re_findall at 1. simpl.
  destruct (re_search p s) as [m|] eqn:Hs; [|done].
  pose proof (re_search_rest_shorter _ _ _ Hp Hs). f_equal.
  apply findall_from_fuel; [done|lia..].
Qed.

Lemma re_search_here p s cap rest :
  match_here p false s = Some (cap, rest) →
  re_search p s = Some (MkMatch 0 cap rest).
Proof. intros H. destruct s; simpl; by rewrite H. Qed.

(** A match at the start is the first result. *)
Lemma re_findall_here p s cap rest :
  consuming p → match_here p false s = Some (cap, rest) →
  re_findall p s = cap :: re_findall p rest.
Proof.
  intros Hp Hm. rewrite re_findall_unfold by done.
  by rewrite (re_search_here _ _ _ _ Hm).
Qed.

(** Positions without a match are passed over. *)
Lemma re_findall_skip p before s :
  consuming p →
  (∀ b1 b2, before = b1 ++ b2 → b2 ≠ [] →
            match_here p false (b2 ++ s) = None) →
  re_findall p (before ++ s) = re_findall p s.
Proof.
  intros Hp. induction before as [|x before IH]; intros Hnone; [done|].
  rewrite re_findall_unfold by done.
  assert (match_here p false (x :: before ++ s) = None) as Hx
    by by apply (Hnone [] (x :: before)).
  simpl. rewrite Hx. rewrite <-IH.
  - rewrite (re_findall_unfold p (before ++ s)) by done.
    by destruct (re_search p (before ++ s)).
  - intros b1 b2 -> Hb2. by apply (Hnone (x :: b1) b2).
Qed.

Lemma re_findall_nil p : match_here p false [] = None → re_findall p [] = [].
Proof. intros H. unfold re_findall. simpl. by rewrite H. Qed.

(** ** Occurrences of a text in a text *)

Lemma starts_with_app w s : starts_with w (w ++ s) = true.
Proof. induction w as [|c w IH]; simpl; [done|]. by rewrite bool_decide_true. Qed.

Lemma starts_with_true w s : starts_with w s = true → ∃ t, s = w ++ t.
Proof.
  revert s. induction w as [|c w IH]; intros [|x s]; simpl; try done.
  - by exists [].
  - by exists (x :: s).
  - intros [Hc [t ->]%IH]%andb_true_iff. apply bool_decide_eq_true in Hc as ->.
    by exists t.
Qed.

Lemma occurrences_unfold w s :
  occurrences w s =
    (if starts_with w s then 1 else 0) +
    match s with [] => 0 | _ :: s' => occurrences w s' end.
Proof. by destruct s. Qed.

Lemma occurrences_ge w a s : 1 ≤ occurrences w (a ++ w ++ s).
Proof.
  induction a as [|x a IH]; simpl.
  - rewrite occurrences_unfold, starts_with_app. lia.
  - lia.
Qed.

(** A text that occurs once occurs at one position. *)
Lemma occurrences_once w s a a' t t' :
  occurrences w s = 1 → s = a ++ w ++ t → s = a' ++ w ++ t' → a = a'.
Proof.
  revert s a'. induction a as [|x a IH]; intros s [|x' a'] Hone E E'.
  - done.
  - rewrite occurrences_unfold in Hone. rewrite E in Hone at 1.
    rewrite E' in Hone at 1. simpl in *. rewrite starts_with_app in Hone.
    pose proof (occurrences_ge w a' t'). lia.
  - rewrite occurrences_unfold in Hone. rewrite E' in Hone at 1.
    rewrite E in Hone at 1. simpl in *. rewrite starts_with_app in Hone.
    pose proof (occurrences_ge w a t). lia.
  - subst s. injection E' as -> E'. f_equal.
    simpl in Hone. pose proof (occurrences_ge w a t).
    apply (IH (a ++ w ++ t)); [|done..].
    destruct (starts_with w (x' :: a ++ w ++ t)); lia.
Qed.

Lemma occurrences_none w s s1 s2 :
  occurrences w s = 0 → s = s1 ++ s2 → starts_with w s2 = false.
Proof.
  revert s. induction s1 as [|x s1 IH]; intros s Hzero ->; simpl in *.
  - destruct s2; simpl in *; destruct (starts_with w _); done || lia.
  - apply (IH (s1 ++ s2)); [lia|done].
Qed.

(** ** Cutting at the first separator *)

Lemma first_sep_prefix (c : ascii) l1 r1 l2 r2 :
  l1 ++ c :: r1 = l2 ++ r2 → c ∉ l1 → c ∉ l2 → ∃ t, l1 = l2 ++ t.
Proof.
  revert l1. induction l2 as [|y l2 IH]; intros l1 E H1 H2.
  - by exists l1.
  - apply not_elem_of_cons in H2 as [Hy H2].
    destruct l1 as [|x l1]; simpl in E.
    + by injection E as -> _.
    + injection E as -> E. apply not_elem_of_cons in H1 as [_ H1].
      destruct (IH _ E H1 H2) as [t ->]. by exists t.
Qed.

Lemma first_sep_unique (c : ascii) l1 r1 l2 r2 :
  l1 ++ c :: r1 = l2 ++ c :: r2 → c ∉ l1 → c ∉ l2 → l1 = l2 ∧ r1 = r2.
Proof.
  revert l2. induction l1 as [|x l1 IH]; intros [|y l2] E H1 H2; simpl in E.
  - by injection E as ->.
  - injection E as -> _. by apply not_elem_of_cons in H2 as [? _].
  - injection E as -> _. by apply not_elem_of_cons in H1 as [? _].
  - injection E as -> E. apply not_elem_of_cons in H1 as [_ H1].
    apply not_elem_of_cons in H2 as [_ H2].
    by destruct (IH _ E H1 H2) as [-> ->].
Qed.

(** ** One edge tag *)

Lemma match_here_lit_None w p g s :
  starts_with w s = false → match_here (lit w ++ p) g s = None.
Proof.
  revert s. induction w as [|c w IH]; intros [|x s]; simpl; try done.
  destruct (decide (x = c)) as [->|Hx]; [|done].
  rewrite bool_decide_true by done. simpl. intros H. by rewrite IH.
Qed.

(** In a tag whose inside holds no [>] and holds the key and its opening
    quote once, an attribute pattern captures the value that follows and
    stops behind its closing quote. *)
Lemma match_attr_once key body a v b after :
  body = a ++ (key ++ [dq]) ++ v ++ dq :: b →
  gt ∉ body → gt ∉ key → dq ∉ v →
  occurrences (key ++ [dq]) body = 1 →
  match_here (attr_pattern key) false (T "<edge" ++ body ++ gt :: after)
    = Some (v, b ++ gt :: after).
Proof.
  intros Hbody Hgt Hkey Hv Hone.
  assert (gt ∉ a) as Ha.
  { intros Hin. apply Hgt. rewrite Hbody. apply elem_of_app. by left. }
  destruct (match_here_complete (attr_pattern key) false
              (T "<edge" ++ a ++ key ++ [dq] ++ v ++ [dq]) v
              (b ++ gt :: after)) as [[cap rest] Hm].
  { apply matches_attr_pattern. by exists a. }
  replace ((T "<edge" ++ a ++ key ++ [dq] ++ v ++ [dq]) ++ b ++ gt :: after)
    with (T "<edge" ++ body ++ gt :: after) in Hm
    by (rewrite Hbody; rewrite <-?app_assoc; simpl; done).
  rewrite Hm. f_equal.
  apply match_attr_sound in Hm as (attrs & E & Hattrs & Hcap).
  apply app_inv_head in E.
  destruct (first_sep_prefix gt body after (attrs ++ key ++ [dq])
              (cap ++ [dq] ++ rest)) as [t Ht].
  { rewrite E. by rewrite <-?app_assoc. }
  { done. }
  { rewrite !not_elem_of_app. split_and!; [done..|]. by_decide. }
  assert (a = attrs) as <-.
  { apply (occurrences_once (key ++ [dq]) body a attrs (v ++ dq :: b) t);
      [done|done|]. rewrite Ht. by rewrite <-?app_assoc. }
  rewrite Hbody in E. rewrite <-?app_assoc in E.
  apply app_inv_head in E. rewrite <-?app_assoc in E.
  apply app_inv_head in E. simpl in E. injection E as E.
  rewrite <-?app_assoc in E. simpl in E.
  by destruct (first_sep_unique dq v (b ++ gt :: after) cap rest E Hv Hcap)
    as [-> ->].
Qed.

(** ** Reading the edge tags of a document *)

Lemma edges_end_or_tag edges : end_or_tag (concat (map edge_text edges)).
Proof. destruct edges as [|e edges]; [by left|right]. simpl. eauto. Qed.

(** An edge opening cannot start in a text and finish in the next tag. *)
Lemma starts_with_edge_straddle f next :
  f ≠ [] → end_or_tag next →
  starts_with (T "<edge") (f ++ next) = true →
  starts_with (T "<edge") f = true.
Proof.
  intros Hf Hnext.
  destruct f as [|c1 [|c2 [|c3 [|c4 [|c5 f]]]]]; [done| | | | |by simpl];
    destruct Hnext as [->|[n ->]]; simpl;
    repeat case_bool_decide; simpl; try done.
Qed.

Lemma occurrences_skip w x y :
  lt_ ∉ x → occurrences (lt_ :: w) (x ++ y) = occurrences (lt_ :: w) y.
Proof.
  induction x as [|c x IH]; [done|]. intros [Hc Hx]%not_elem_of_cons.
  simpl. rewrite bool_decide_false by done. simpl. by apply IH.
Qed.

Lemma re_findall_attr_skip key filler next :
  no_edge_opening filler → end_or_tag next →
  re_findall (attr_pattern key) (filler ++ next) =
  re_findall (attr_pattern key) next.
Proof.
  intros Hfiller Hnext.
  apply re_findall_skip; [apply attr_pattern_consuming|].
  intros b1 b2 -> Hb2. unfold attr_pattern. apply match_here_lit_None.
  destruct (starts_with (T "<edge") (b2 ++ next)) eqn:E; [|done].
  apply starts_with_edge_straddle in E; [|done..].
  by rewrite (occurrences_none _ _ b1 b2 Hfiller) in E.
Qed.

(** The edge tags of a document give up their values one after the other,
    in the order of the tags. *)
Lemma re_findall_edges key (value : edge → text) head edges :
  gt ∉ key →
  no_edge_opening head →
  Forall (λ e,
    (lt_ ∉ e_body e) ∧ (gt ∉ e_body e) ∧ no_edge_opening (e_after e) ∧
    (∃ a b, e_body e = a ++ (key ++ [dq]) ++ value e ++ dq :: b) ∧
    (dq ∉ value e) ∧ occurrences (key ++ [dq]) (e_body e) = 1) edges →
  re_findall (attr_pattern key) (edges_doc head edges) = map value edges.
Proof.
  intros Hkey Hhead Hedges. unfold edges_doc.
  rewrite re_findall_attr_skip by (done || apply edges_end_or_tag).
  clear head Hhead.
  induction Hedges as [|e edges (Hlt & Hgt & Hafter & (a & b & Hbody) & Hv & Hone)
                         _ IH]; simpl.
  - by apply re_findall_nil.
  - unfold edge_text at 1. rewrite <-!app_assoc.
    change ((gt :: e_after e) ++ ?r) with (gt :: e_after e ++ r).
    rewrite (re_findall_here _ _ (value e)
               (b ++ gt :: e_after e ++ concat (map edge_text edges)));
      [|apply attr_pattern_consuming|by apply (match_attr_once _ _ a)].
    f_equal.
    replace (b ++ gt :: e_after e ++ concat (map edge_text edges))
      with ((b ++ gt :: e_after e) ++ concat (map edge_text edges))
      by (by rewrite <-app_assoc).
    rewrite re_findall_attr_skip; [done| |apply edges_end_or_tag].
    unfold no_edge_opening. cbn [T list_ascii_of_string].
    replace (b ++ gt :: e_after e) with ((b ++ [gt]) ++ e_after e)
      by (by rewrite <-app_assoc).
    rewrite occurrences_skip; [done|].
    apply not_elem_of_app. split; [|by_decide].
    intros Hin. apply Hlt. rewrite Hbody. set_solver.
Qed.

Lemma has_attribute_key body name value :
  has_attribute body name value →
  (∃ a b, body = a ++ ((name ++ T "=") ++ [dq]) ++ value ++ dq :: b) ∧
  (dq ∉ value) ∧
  occurrences ((name ++ T "=") ++ [dq]) body = 1.
Proof.
  intros ((a & c & b & _ & ->) & Hv & Hone). split_and!; [|done|].
  - exists (a ++ [c]), b. unfold quoted. rewrite <-?app_assoc. simpl.
    by rewrite <-?app_assoc.
  - by rewrite <-app_assoc.
Qed.

Lemma extract_node_ids_edges_doc head edges :
  no_edge_opening head →
  Forall plain_edge edges →
  extract_node_ids (edges_doc head edges) =
  list_to_set (map e_source edges ++ map e_target edges).
Proof.
  intros Hhead Hedges. unfold extract_node_ids.
  change source_pattern with (attr_pattern (T "source" ++ T "=")).
  change target_pattern with (attr_pattern (T "target" ++ T "=")).
  rewrite (re_findall_edges _ e_source), (re_findall_edges _ e_target);
    [by rewrite list_to_set_app_L, (left_id_L ∅ (∪))| | | | | |];
    try done; try by_decide.
  - eapply Forall_impl; [done|].
    intros e (? & ? & ? & _ & (? & ? & ?)%has_attribute_key). by split_and!.
  - eapply Forall_impl; [done|].
    intros e (? & ? & ? & (? & ? & ?)%has_attribute_key & _). by split_and!.
Qed.

(** ** The claim on the extractor, read on elements *)


(** The same mechanism with the [>] in another attribute: neither endpoint
    is collected. *)
Example extract_node_ids_label_with_gt :
  let doc :=
    spec_edge_element [(T "label", T "A>B"); (T "source", T "A");
                  (T "target", T "B")] in
  spec_edge_endpoint doc (T "A") ∧ extract_node_ids doc = ∅.
Proof.
  split; [|by vm_compute].
  exists [], [(T "label", T "A>B"); (T "source", T "A"); (T "target", T "B")],
    [], (T "source").
  split_and!; [done|by left|by_decide|by_decide].
Qed.



(** * Further properties of the script *)

(** ** The outcomes of the composer *)

(** The composer reads the sequence file, then the metadata file, then the
    document; the first one that is missing stops it. *)
Lemma rebuild_xgmml_missing_input
    fs xgmml_file fasta_file metadata_file output_file :
  (fs !! fasta_file = None →
   rebuild_xgmml xgmml_file fasta_file metadata_file output_file fs =
     (inl (FileNotFoundError fasta_file), fs)) ∧
  (is_Some (fs !! fasta_file) → fs !! metadata_file = None →
   rebuild_xgmml xgmml_file fasta_file metadata_file output_file fs =
     (inl (FileNotFoundError metadata_file), fs)) ∧
  (is_Some (fs !! fasta_file) → is_Some (fs !! metadata_file) →
   fs !! xgmml_file = None →
   rebuild_xgmml xgmml_file fasta_file metadata_file output_file fs =
     (inl (FileNotFoundError xgmml_file), fs)).
Proof.
  unfold rebuild_xgmml, parse_fasta, parse_metadata_tab,
    extract_node_ids_from_xgmml.
  unfold mbind, M_bind, bind, mret, M_ret, ret, raise, read_file.
  split_and!.
  - by intros ->.
  - intros [fasta ->] ->. done.
  - intros [fasta ->] [metadata ->] ->. done.
Qed.

(** X9. When an input file is missing the composer raises
    FileNotFoundError for the first missing one, in the order sequence
    file, metadata file, document, and writes nothing. *)
Theorem rebuild_xgmml_file_not_found
    fs xgmml_file fasta_file metadata_file output_file :
  fs !! fasta_file = None ∨ fs !! metadata_file = None ∨
    fs !! xgmml_file = None →
  ∃ path,
    rebuild_xgmml xgmml_file fasta_file metadata_file output_file fs =
      (inl (FileNotFoundError path), fs) ∧
    fs !! path = None ∧
    (path = fasta_file ∨
     (is_Some (fs !! fasta_file) ∧ path = metadata_file) ∨
     (is_Some (fs !! fasta_file) ∧ is_Some (fs !! metadata_file) ∧
      path = xgmml_file)).
Proof.
  intros Hmissing.
  destruct (rebuild_xgmml_missing_input fs xgmml_file fasta_file
              metadata_file output_file) as (Hf & Hm & Hx).
  destruct (fs !! fasta_file) as [fasta|] eqn:Ef.
  - destruct (fs !! metadata_file) as [metadata|] eqn:Em.
    + destruct (fs !! xgmml_file) as [doc|] eqn:Ex.
      * by destruct Hmissing as [?|[?|?]].
      * exists xgmml_file. split_and!; [by apply Hx|done|].
        right; right. by split_and!.
    + exists metadata_file. split_and!; [by apply Hm|done|].
      right; left. by split.
  - exists fasta_file. split_and!; [by apply Hf|done|by left].
Qed.

Lemma rebuild_xgmml_file_not_found_witness :
  ∃ path,
    rebuild_xgmml "in.xgmml" "seq.fasta" "none.tab" "out.xgmml"
      (example_fs example_doc) =
      (inl (FileNotFoundError path), example_fs example_doc) ∧
    example_fs example_doc !! path = None ∧
    (path = "seq.fasta"%string ∨
     (is_Some (example_fs example_doc !! "seq.fasta"%string) ∧
      path = "none.tab"%string) ∨
     (is_Some (example_fs example_doc !! "seq.fasta"%string) ∧
      is_Some (example_fs example_doc !! "none.tab"%string) ∧
      path = "in.xgmml"%string)).
Proof.
  apply (rebuild_xgmml_file_not_found (example_fs example_doc)
           "in.xgmml" "seq.fasta" "none.tab" "out.xgmml").
  right; left. by vm_compute.
Defined.


(** ** The counters of the composer *)

Lemma any_match_false d node_id :
  any_match d node_id = false ↔ first_match d node_id = None.
Proof.
  unfold any_match. induction d as [|[k v] d IH]; simpl; [done|].
  destruct (decide (upper k = upper node_id)) as [Hk|Hk].
  - by rewrite bool_decide_true.
  - by rewrite bool_decide_false.
Qed.

Lemma node_step_counts ids sequences descriptions acc :
  (fold_left (node_step sequences descriptions) ids acc).1.2 =
    acc.1.2 + length ids ∧
  (fold_left (node_step sequences descriptions) ids acc).2 =
    acc.2 + length (filter (missing_data sequences descriptions) ids).
Proof.
  revert acc. induction ids as [|id ids IH]; intros [[xmls a] b]; simpl.
  - split; lia.
  - destruct (IH (xmls ++ [create_node_xml id sequences descriptions], S a,
                  if negb (any_match sequences id)
                     || negb (any_match descriptions id)
                  then S b else b)) as [-> ->]. simpl.
    split; [lia|].
    destruct (decide (missing_data sequences descriptions id)) as [Hm|Hm].
    + rewrite filter_cons_True by done. simpl.
      assert (negb (any_match sequences id)
              || negb (any_match descriptions id) = true) as ->; [|lia].
      apply orb_true_iff.
      destruct Hm as [Hm|Hm]; [left|right];
        apply negb_true_iff, any_match_false, Hm.
    + rewrite filter_cons_False by done.
      assert (negb (any_match sequences id)
              || negb (any_match descriptions id) = false) as ->; [|lia].
      apply orb_false_iff. split; apply negb_false_iff;
        apply not_false_iff_true; intros H%any_match_false; apply Hm;
        [by left|by right].
Qed.

Lemma sorted_length ids : length (sorted ids) = size ids.
Proof. unfold sorted. by rewrite merge_sort_Permutation. Qed.

(** X8. On success the composer reports the number of nodes added, which is
    the number of distinct identifiers of the reference set, and the number
    of nodes with missing data, which counts the identifiers written with a
    default sequence or a default description; the second never exceeds the
    first. *)
Theorem rebuild_xgmml_report
    fs xgmml_file fasta_file metadata_file output_file doc fasta metadata :
  fs !! xgmml_file = Some doc →
  fs !! fasta_file = Some fasta →
  fs !! metadata_file = Some metadata →
  has_tag (T "graph") doc →
  has_tag (T "edge") doc →
  ∃ nodes_added nodes_missing_data fs',
    rebuild_xgmml xgmml_file fasta_file metadata_file output_file fs =
      (inr (nodes_added, nodes_missing_data), fs') ∧
    nodes_added = size (extract_node_ids doc) ∧
    nodes_missing_data =
      length (filter (missing_data (parse_fasta_text fasta)
                        (parse_metadata_text metadata))
                (sorted (extract_node_ids doc))) ∧
    nodes_missing_data ≤ nodes_added.
Proof.
  intros Hx Hf Hm Hgraph Hedge.
  destruct (node_step_counts (sorted (extract_node_ids doc))
              (parse_fasta_text fasta) (parse_metadata_text metadata)
              ([], 0, 0)) as [Hadded Hmissing].
  apply search_tag_is_Some in Hgraph as [gm Hgm].
  apply search_tag_is_Some in Hedge as [em Hem].
  rewrite <-graph_pattern_tag in Hgm. rewrite <-first_edge_pattern_tag in Hem.
  unfold rebuild_xgmml, parse_fasta, parse_metadata_tab,
    extract_node_ids_from_xgmml.
  unfold mbind, M_bind, bind, mret, M_ret, ret, raise, read_file, write_file.
  rewrite Hf, Hm, Hx. unfold build_nodes.
  destruct (fold_left _ _ _) as [[xmls added] missing].
  simpl in Hadded, Hmissing. rewrite Hgm, Hem.
  eexists added, missing, _. split; [done|].
  rewrite Hadded, Hmissing, sorted_length. split_and!; [done..|].
  rewrite <-sorted_length. apply length_filter.
Qed.

Lemma rebuild_xgmml_report_witness :
  ∃ nodes_added nodes_missing_data fs',
    rebuild_xgmml "in.xgmml" "seq.fasta" "meta.tab" "out.xgmml"
      (example_fs example_two_edges) =
      (inr (nodes_added, nodes_missing_data), fs') ∧
    nodes_added = size (extract_node_ids example_two_edges) ∧
    nodes_missing_data =
      length (filter (missing_data (parse_fasta_text example_fasta)
                        (parse_metadata_text example_metadata))
                (sorted (extract_node_ids example_two_edges))) ∧
    nodes_missing_data ≤ nodes_added.
Proof.
  apply (rebuild_xgmml_report (example_fs example_two_edges)
           "in.xgmml" "seq.fasta" "meta.tab" "out.xgmml"
           example_two_edges example_fasta example_metadata).
  - by vm_compute.
  - by vm_compute.
  - by vm_compute.
  - apply search_tag_has. vm_compute. by eexists.
  - apply search_tag_has. vm_compute. by eexists.
Defined.

(** ** The command line *)

Lemma main_run prog xgmml_file fasta_file metadata_file output_file fs
    doc fasta metadata :
  fs !! xgmml_file = Some doc →
  fs !! fasta_file = Some fasta →
  fs !! metadata_file = Some metadata →
  main [prog; xgmml_file; fasta_file; metadata_file; output_file] fs =
    match re_search (tag_pattern (T "graph")) doc,
          re_search (tag_pattern (T "edge")) doc with
    | Some _, Some m =>
        (0, <[output_file :=
                take (m_start m) doc ++
                all_nodes doc (parse_fasta_text fasta)
                  (parse_metadata_text metadata) ++
                drop (m_start m) doc]> fs)
    | _, _ => (1, fs)
    end.
Proof.
  intros Hx Hf Hm. unfold main. cbn [forallb].
  rewrite Hx, Hf, Hm, !bool_decide_true by by eexists. cbn [andb].
  destruct (rebuild_xgmml_run fs _ _ _ output_file _ _ _ Hx Hf Hm)
    as [report ->].
  rewrite graph_pattern_tag, first_edge_pattern_tag.
  destruct (re_search (tag_pattern (T "graph")) doc); [|done].
  by destruct (re_search (tag_pattern (T "edge")) doc).
Qed.

Lemma main_missing prog xgmml_file fasta_file metadata_file output_file fs :
  fs !! xgmml_file = None ∨ fs !! fasta_file = None ∨
    fs !! metadata_file = None →
  main [prog; xgmml_file; fasta_file; metadata_file; output_file] fs = (1, fs).
Proof.
  intros Hmissing. unfold main. cbn [forallb].
  destruct (fs !! xgmml_file) as [doc|] eqn:Hx;
    [|by rewrite bool_decide_false by by intros []].
  destruct (fs !! fasta_file) as [fasta|] eqn:Hf;
    [|by rewrite (bool_decide_false (is_Some None)), andb_false_r
        by by intros []].
  destruct (fs !! metadata_file) as [metadata|] eqn:Hm;
    [|by rewrite (bool_decide_false (is_Some None)), !andb_false_r
        by by intros []].
  by destruct Hmissing as [?|[?|?]].
Qed.


(** ** More on splitting, stripping and mappings *)

Lemma split_pieces sep s w :
  w ∈ split sep s → (sep ∉ w) ∧ ∀ c, c ∈ w → c ∈ s.
Proof.
  revert w. induction s as [|x s IH]; intros w.
  - rewrite split_nil, list_elem_of_singleton. intros ->.
    split; [apply not_elem_of_nil|done].
  - destruct (decide (x = sep)) as [->|Hx].
    + rewrite split_cons_sep. intros [->|Hw]%elem_of_cons.
      * split; [apply not_elem_of_nil|]. by intros c ?%elem_of_nil.
      * destruct (IH _ Hw) as [? Hsub]. split; [done|].
        intros c Hc. apply elem_of_cons. right. by apply Hsub.
    + rewrite split_cons_other by done.
      rewrite split_aux_split in IH.
      intros [->|Hw]%elem_of_cons.
      * destruct (IH (split_aux sep s).1) as [Hsep Hsub]; [by left|].
        split.
        -- apply not_elem_of_cons. split; [congruence|done].
        -- intros c [->|Hc]%elem_of_cons; [by left|].
           apply elem_of_cons. right. by apply Hsub.
      * destruct (IH w) as [Hsep Hsub]; [by right|]. split; [done|].
        intros c Hc. apply elem_of_cons. right. by apply Hsub.
Qed.

Lemma strip_elem_of s c : c ∈ strip s → c ∈ s.
Proof.
  destruct (strip_spec s) as (ws1 & ws2 & E & _). intros Hc.
  rewrite E, !elem_of_app. tauto.
Qed.

Lemma lstrip_idemp s : lstrip (lstrip s) = lstrip s.
Proof.
  destruct (lstrip s) as [|c t] eqn:E; [done|].
  apply lstrip_head in E. simpl. by rewrite E.
Qed.

Lemma strip_idemp s : strip (strip s) = strip s.
Proof.
  unfold strip at 1 3.
  assert (lstrip (strip s) = strip s) as ->.
  { unfold strip. destruct (lstrip s) as [|c t] eqn:E; [done|].
    apply lstrip_head in E. destruct (rstrip_cons c t E) as [u ->].
    simpl. by rewrite E. }
  unfold strip, rstrip. by rewrite rev_involutive, lstrip_idemp.
Qed.

Lemma dict_set_elem_of d k v k' v' :
  (k', v') ∈ dict_set d k v → (k', v') = (k, v) ∨ (k', v') ∈ d.
Proof.
  induction d as [|[k0 v0] d IH]; simpl.
  - intros ->%list_elem_of_singleton. by left.
  - destruct (decide (k0 = k)) as [->|Hk].
    + intros [->|Hin]%elem_of_cons; [by left|]. right. by right.
    + intros [->|Hin]%elem_of_cons; [right; by left|].
      destruct (IH Hin) as [?|?]; [by left|]. right. by right.
Qed.

(** An assignment keeps the keys where they are and puts a new key last. *)
Lemma dict_set_keys d k v :
  keys (dict_set d k v) = if decide (k ∈ keys d) then keys d else keys d ++ [k].
Proof.
  unfold keys. induction d as [|[k0 v0] d IH]; simpl.
  - done.
  - destruct (decide (k0 = k)) as [->|Hk]; simpl.
    + by rewrite decide_True by by left.
    + rewrite IH. destruct (decide (k ∈ map fst d)) as [Hin|Hin].
      * by rewrite decide_True by by right.
      * rewrite decide_False; [done|].
        apply not_elem_of_cons. split; [congruence|done].
Qed.

Lemma dict_set_NoDup d k v : NoDup (keys d) → NoDup (keys (dict_set d k v)).
Proof.
  intros Hd. rewrite dict_set_keys. destruct (decide (k ∈ keys d)); [done|].
  apply NoDup_app. split_and!; [done| |apply NoDup_singleton].
  intros x Hx ->%list_elem_of_singleton. done.
Qed.

(** The loop body of the sequence parser always assigns. *)
Lemma fasta_entry_assigns sequences entry :
  ∃ line0 body,
    split nl (strip entry) = line0 :: body ∧
    fasta_entry sequences entry =
      dict_set sequences (strip line0)
        (remove_char sp (remove_char nl (concat body))).
Proof.
  unfold fasta_entry. rewrite split_aux_split. by eexists _, _.
Qed.

Lemma elem_of_tail {A} (l : list A) x : x ∈ tail l → x ∈ l.
Proof. destruct l; simpl; [done|]. by right. Qed.

Lemma elem_of_concat (ls : list text) c :
  c ∈ concat ls ↔ ∃ w, c ∈ w ∧ w ∈ ls.
Proof.
  induction ls as [|w ls IH]; simpl.
  - split; [by intros ?%elem_of_nil|]. by intros (? & _ & ?%elem_of_nil).
  - rewrite elem_of_app, IH. split.
    + intros [?|(w' & ? & ?)]; [exists w; split; [done|by left]|].
      exists w'. split; [done|by right].
    + intros (w' & ? & [->|?]%elem_of_cons); [by left|right]. by exists w'.
Qed.

Lemma fold_left_invariant {A B} (P : A → Prop) (f : A → B → A) l a :
  P a → (∀ a b, P a → b ∈ l → P (f a b)) → P (fold_left f l a).
Proof.
  revert a. induction l as [|b l IH]; intros a Ha Hf; simpl; [done|].
  apply IH.
  - apply Hf; [done|by left].
  - intros a' b' Ha' Hb'. apply Hf; [done|by right].
Qed.

(** ** More on the sequence parser *)

(** X1. Whatever stands in front of the first marker is ignored, and a file
    without a marker gives the empty mapping. *)
Theorem parse_fasta_preamble (preamble : text) :
  gt ∉ preamble →
  parse_fasta_text preamble = [] ∧
  ∀ rest,
    parse_fasta_text (preamble ++ gt :: rest) = parse_fasta_text (gt :: rest).
Proof.
  intros Hgt. unfold parse_fasta_text. split.
  - by rewrite split_no_sep.
  - intros rest. by rewrite split_app_sep, split_cons_sep.
Qed.

Lemma parse_fasta_preamble_witness :
  parse_fasta_text (T "; a comment") = [] ∧
  parse_fasta_text (T "; a comment" ++ gt :: T "P1" ++ [nl] ++ T "MKV")
    = [(T "P1", T "MKV")].
Proof.
  destruct (parse_fasta_preamble (T "; a comment")) as [Hnone Hskip];
    [by_decide|].
  split; [done|]. rewrite Hskip. by vm_compute.
Defined.

(** X2. The identifiers of the sequence mapping are pairwise distinct and
    stand in the order of their first occurrence in the file: one more
    record leaves the identifiers as they are when its identifier is
    already there, and adds its identifier at the end otherwise; no other
    identifier changes its sequence. *)
Theorem parse_fasta_keys (content entry : text) :
  gt ∉ entry →
  NoDup (keys (parse_fasta_text content)) ∧
  ∃ header,
    keys (parse_fasta_text (content ++ gt :: entry)) =
      (if decide (header ∈ keys (parse_fasta_text content))
       then keys (parse_fasta_text content)
       else keys (parse_fasta_text content) ++ [header]) ∧
    ∀ k, k ≠ header →
      dict_get (parse_fasta_text (content ++ gt :: entry)) k =
      dict_get (parse_fasta_text content) k.
Proof.
  intros Hgt. split.
  - unfold parse_fasta_text.
    apply (fold_left_invariant (λ d, NoDup (keys d))); [constructor|].
    intros d e Hd _. destruct (fasta_entry_assigns d e) as (? & ? & _ & ->).
    by apply dict_set_NoDup.
  - rewrite parse_fasta_text_snoc by done.
    destruct (fasta_entry_assigns (parse_fasta_text content) entry)
      as (line0 & body & _ & ->).
    exists (strip line0). split; [apply dict_set_keys|].
    intros k Hk. by apply dict_get_set_ne.
Qed.

Lemma parse_fasta_keys_witness :
  keys (parse_fasta_text
          ((T ">P1" ++ [nl] ++ T "MKV" ++ [nl] ++ T ">P2" ++ [nl] ++ T "LST" ++
            [nl]) ++ gt :: T "P1" ++ [nl] ++ T "AAA"))
    = [T "P1"; T "P2"] ∧
  NoDup (keys (parse_fasta_text
                 (T ">P1" ++ [nl] ++ T "MKV" ++ [nl] ++ T ">P2" ++ [nl] ++
                  T "LST" ++ [nl]))).
Proof.
  destruct (parse_fasta_keys
              (T ">P1" ++ [nl] ++ T "MKV" ++ [nl] ++ T ">P2" ++ [nl] ++
               T "LST" ++ [nl])
              (T "P1" ++ [nl] ++ T "AAA")) as [Hnodup _]; [by_decide|].
  split; [by vm_compute|done].
Defined.

(** X3. Every entry of the sequence mapping is clean: the identifier holds
    no marker and no newline and has no white space at either end, and the
    sequence holds no marker, no newline and no space. *)
Theorem parse_fasta_entries_clean (content k v : text) :
  (k, v) ∈ parse_fasta_text content →
  (gt ∉ k) ∧ (nl ∉ k) ∧ strip k = k ∧
  (gt ∉ v) ∧ (nl ∉ v) ∧ (sp ∉ v).
Proof.
  revert k v. unfold parse_fasta_text.
  apply (fold_left_invariant
           (λ d, ∀ k v, (k, v) ∈ d →
                   (gt ∉ k) ∧ (nl ∉ k) ∧ strip k = k ∧
                   (gt ∉ v) ∧ (nl ∉ v) ∧ (sp ∉ v))).
  { by intros k v ?%elem_of_nil. }
  intros d entry Hd Hentry k v.
  assert (gt ∉ entry) as Hgt.
  { apply (split_pieces gt content). by apply elem_of_tail. }
  destruct (fasta_entry_assigns d entry) as (line0 & body & Hsplit & ->).
  intros [[= -> ->]|Hin]%dict_set_elem_of; [|by apply Hd].
  assert (∀ w, w ∈ split nl (strip entry) → (nl ∉ w) ∧ (gt ∉ w)) as Hpiece.
  { intros w Hw. destruct (split_pieces _ _ _ Hw) as [Hnl Hsub].
    split; [done|]. intros Hc%Hsub%strip_elem_of. done. }
  rewrite Hsplit in Hpiece.
  destruct (Hpiece line0) as [Hnl0 Hgt0]; [by left|].
  split_and!.
  - by intros ?%strip_elem_of.
  - by intros ?%strip_elem_of.
  - apply strip_idemp.
  - unfold remove_char. rewrite !list_elem_of_filter, elem_of_concat.
    intros (_ & _ & w & Hc & Hw).
    destruct (Hpiece w) as [_ Hgtw]; [by right|done].
  - unfold remove_char. rewrite !list_elem_of_filter. tauto.
  - unfold remove_char. rewrite !list_elem_of_filter. tauto.
Qed.

Lemma parse_fasta_entries_clean_witness :
  let content :=
    T "> P1 " ++ [nl] ++ T "MK V" ++ [nl] ++ T "LST" ++ [nl] in
  (T "P1", T "MKVLST") ∈ parse_fasta_text content ∧
  strip (T "P1") = T "P1" ∧ sp ∉ T "MKVLST".
Proof.
  intros content.
  assert ((T "P1", T "MKVLST") ∈ parse_fasta_text content) as Hin
    by by_decide.
  destruct (parse_fasta_entries_clean content _ _ Hin)
    as (_ & _ & Hk & _ & _ & Hv).
  by split_and!.
Defined.

(** ** More on the annotation parser *)

Lemma readlines_no_nl s : nl ∉ s → s ≠ [] → readlines s = [s].
Proof.
  induction s as [|c s IH]; [done|]. intros [Hc Hs]%not_elem_of_cons _.
  simpl. rewrite decide_False by done.
  destruct s as [|c' s]; [done|]. by rewrite IH.
Qed.

Lemma readlines_app_nl line rest :
  nl ∉ line → readlines (line ++ nl :: rest) = (line ++ [nl]) :: readlines rest.
Proof.
  induction line as [|c line IH]; simpl.
  - done.
  - intros [Hc Hline]%not_elem_of_cons. rewrite decide_False by done.
    by rewrite IH.
Qed.

(** A line ends at its newline and holds no other one. *)
Lemma readlines_lines s line :
  line ∈ readlines s →
  ∃ body, (nl ∉ body) ∧ (line = body ∨ line = body ++ [nl]).
Proof.
  revert line. induction s as [|c s IH]; intros line; simpl.
  - by intros ?%elem_of_nil.
  - destruct (decide (c = nl)) as [->|Hc].
    + intros [->|Hin]%elem_of_cons; [|by apply IH].
      exists []. split; [apply not_elem_of_nil|by right].
    + destruct (readlines s) as [|l ls] eqn:E.
      * intros ->%list_elem_of_singleton. exists [c]. split; [|by left].
        apply not_elem_of_cons. split; [congruence|apply not_elem_of_nil].
      * intros [->|Hin]%elem_of_cons.
        -- destruct (IH l) as (body & Hbody & Hl); [by left|].
           exists (c :: body). split.
           ++ apply not_elem_of_cons. split; [congruence|done].
           ++ destruct Hl as [Hl|Hl]; rewrite Hl; [by left|by right].
        -- apply IH. by right.
Qed.

Lemma lstrip_app a b :
  lstrip (a ++ b) = match lstrip a with [] => lstrip b | _ => lstrip a ++ b end.
Proof.
  induction a as [|c a IH]; simpl; [by destruct (lstrip b)|].
  by destruct (isspace c).
Qed.

Lemma rstrip_snoc_space s c : isspace c = true → rstrip (s ++ [c]) = rstrip s.
Proof.
  intros Hc. unfold rstrip. rewrite rev_app_distr. simpl. by rewrite Hc.
Qed.

Lemma strip_snoc_space s c : isspace c = true → strip (s ++ [c]) = strip s.
Proof.
  intros Hc. unfold strip. rewrite lstrip_app.
  destruct (lstrip s) as [|x t] eqn:E.
  - simpl. by rewrite Hc.
  - by apply rstrip_snoc_space.
Qed.

(** The stripped form of a line that was read holds no newline. *)
Lemma strip_line_no_nl s line : line ∈ readlines s → nl ∉ strip line.
Proof.
  intros (body & Hbody & [Hl|Hl])%readlines_lines; rewrite Hl.
  - by intros ?%strip_elem_of.
  - rewrite strip_snoc_space by done. by intros ?%strip_elem_of.
Qed.

(** The loop body of the annotation parser assigns for a Description row
    and does nothing otherwise. *)
Lemma metadata_line_cases descriptions line :
  metadata_line descriptions line = descriptions ∨
  ∃ seq_id value rest,
    split tab (strip line) = seq_id :: T "Description" :: value :: rest ∧
    metadata_line descriptions line = dict_set descriptions seq_id value.
Proof.
  unfold metadata_line.
  destruct (split tab (strip line)) as [|f0 [|f1 [|f2 rest]]]; auto.
  destruct (decide (f1 = description_key)) as [->|]; [right|by left].
  by exists f0, f2, rest.
Qed.

(** X4. A metadata file that holds at most a header line gives the empty
    mapping, and the header line never matters: two files that differ in
    their first line only give the same mapping. *)
Theorem parse_metadata_header (header : text) :
  nl ∉ header →
  parse_metadata_text header = [] ∧
  parse_metadata_text (header ++ [nl]) = [] ∧
  ∀ header' rest,
    nl ∉ header' →
    parse_metadata_text (header ++ nl :: rest) =
    parse_metadata_text (header' ++ nl :: rest).
Proof.
  intros Hnl. unfold parse_metadata_text, parse_metadata_lines. split_and!.
  - destruct header as [|c header]; [done|]. by rewrite readlines_no_nl.
  - by rewrite readlines_app_nl.
  - intros header' rest Hnl'. by rewrite !readlines_app_nl.
Qed.

Lemma parse_metadata_header_witness :
  parse_metadata_text (T "id" ++ [tab] ++ T "attribute") = [] ∧
  parse_metadata_text
    ((T "id" ++ [tab] ++ T "attribute") ++ nl ::
     T "P1" ++ [tab] ++ T "Description" ++ [tab] ++ T "Kinase")
    = [(T "P1", T "Kinase")].
Proof.
  destruct (parse_metadata_header (T "id" ++ [tab] ++ T "attribute"))
    as (Hnone & _ & Hany); [by_decide|].
  split; [done|]. rewrite (Hany [] _) by by_decide. by vm_compute.
Defined.

(** X5. The identifiers of the description mapping are pairwise distinct,
    and every entry is clean: the identifier is not empty and starts with
    a character that is not white space, and neither the identifier nor
    the description holds a tab or a newline. *)
Theorem parse_metadata_entries_clean (content : text) :
  NoDup (keys (parse_metadata_text content)) ∧
  ∀ k v, (k, v) ∈ parse_metadata_text content →
    (∃ c t, k = c :: t ∧ isspace c = false) ∧
    (tab ∉ k) ∧ (nl ∉ k) ∧ (tab ∉ v) ∧ (nl ∉ v).
Proof.
  unfold parse_metadata_text, parse_metadata_lines.
  apply (fold_left_invariant
           (λ d, NoDup (keys d) ∧
                 ∀ k v, (k, v) ∈ d →
                   (∃ c t, k = c :: t ∧ isspace c = false) ∧
                   (tab ∉ k) ∧ (nl ∉ k) ∧ (tab ∉ v) ∧ (nl ∉ v))).
  { split; [constructor|]. by intros k v ?%elem_of_nil. }
  intros d line [Hnodup Hd] Hline%elem_of_tail.
  destruct (metadata_line_cases d line)
    as [->|(seq_id & value & rest & Hsplit & ->)]; [done|].
  split; [by apply dict_set_NoDup|].
  intros k v [[= -> ->]|Hin]%dict_set_elem_of; [|by apply Hd].
  pose proof (strip_line_no_nl _ _ Hline) as Hnl.
  assert (∀ w, w ∈ split tab (strip line) → (tab ∉ w) ∧ (nl ∉ w)) as Hpiece.
  { intros w Hw. destruct (split_pieces _ _ _ Hw) as [Htab Hsub].
    split; [done|]. by intros ?%Hsub. }
  rewrite Hsplit in Hpiece.
  destruct (Hpiece seq_id) as [? ?]; [by left|].
  destruct (Hpiece value) as [? ?]; [by right; right; left|].
  split_and!; try done.
  destruct (lstrip line) as [|c t] eqn:E.
  - unfold strip in Hsplit. rewrite E in Hsplit. by vm_compute in Hsplit.
  - apply lstrip_head in E as Hc.
    unfold strip in Hsplit. rewrite E in Hsplit.
    destruct (rstrip_cons c t Hc) as [u Hu]. rewrite Hu in Hsplit.
    rewrite split_cons_other in Hsplit by (by intros ->).
    injection Hsplit as <- _. eauto.
Qed.

(** ** More on the lookups of the node synthesizer *)

(** X6. The lookups are blind to the case of the identifier: two
    identifiers that are equal once uppercased find the same sequence and
    the same description, so their node elements are the same template
    filled with the same data and differ in the identifier only. *)
Theorem create_node_xml_case (id id' : text) (sequences descriptions : dict) :
  upper id = upper id' →
  first_match sequences id = first_match sequences id' ∧
  first_match descriptions id = first_match descriptions id' ∧
  ∃ seq_length sequence description,
    create_node_xml id sequences descriptions
      = node_template id seq_length sequence description ∧
    create_node_xml id' sequences descriptions
      = node_template id' seq_length sequence description.
Proof.
  intros Hup.
  assert (∀ d, first_match d id = first_match d id') as Hsame.
  { intros d. induction d as [|[k v] d IH]; simpl; [done|].
    rewrite <-Hup. by rewrite IH. }
  split_and!; [done..|]. unfold create_node_xml. rewrite <-!Hsame.
  destruct (first_match sequences id); destruct (first_match descriptions id);
    by eexists _, _, _.
Qed.

Lemma create_node_xml_case_witness :
  first_match [(T "ABC123", T "MKV")] (T "abc123")
    = first_match [(T "ABC123", T "MKV")] (T "Abc123") ∧
  first_match [(T "ABC123", T "MKV")] (T "abc123") = Some (T "MKV").
Proof.
  destruct (create_node_xml_case (T "abc123") (T "Abc123")
              [(T "ABC123", T "MKV")] []) as (Hs & _); [by vm_compute|].
  split; [done|by vm_compute].
Defined.

(** X7. An identifier that is a key of the mapping is always found by the
    case-insensitive lookup; the value found is the one stored under that
    very key when no other key of the mapping is equal to it once
    uppercased. *)
Theorem first_match_exact (d : dict) (k : text) :
  (is_Some (dict_get d k) → is_Some (first_match d k)) ∧
  ((∀ key, key ∈ keys d → upper key = upper k → key = k) →
   first_match d k = dict_get d k).
Proof.
  split.
  - induction d as [|[k0 v0] d IH]; simpl; [done|].
    destruct (decide (upper k0 = upper k)); [by eexists|].
    destruct (decide (k0 = k)) as [->|]; [done|]. apply IH.
  - induction d as [|[k0 v0] d IH]; simpl; [done|]. intros Hkeys.
    destruct (decide (upper k0 = upper k)) as [Hup|Hup].
    + rewrite decide_True; [done|]. apply Hkeys; [by left|done].
    + rewrite decide_False by (by intros ->). apply IH.
      intros key Hkey. apply Hkeys. by right.
Qed.

Lemma first_match_exact_witness :
  first_match [(T "P1", T "MKV"); (T "P2", T "LST")] (T "P2") = Some (T "LST").
Proof.
  rewrite (proj2 (first_match_exact
                    [(T "P1", T "MKV"); (T "P2", T "LST")] (T "P2"))).
  - by vm_compute.
  - intros key Hkey Hup.
    assert (key = T "P1" ∨ key = T "P2") as [-> | ->].
    { unfold keys in Hkey. simpl in Hkey.
      apply elem_of_cons in Hkey as [->|Hkey]; [by left|].
      apply list_elem_of_singleton in Hkey as ->. by right. }
    + by vm_compute in Hup.
    + done.
Defined.

(** ** More on the reference extractor *)

Lemma occurrences_suffix w a b : occurrences w b ≤ occurrences w (a ++ b).
Proof. induction a as [|c a IH]; simpl; lia. Qed.

Lemma has_tag_starts name doc :
  has_tag name doc → 1 ≤ occurrences (lt_ :: name) doc.
Proof.
  intros (before & here & -> & attrs & rest & -> & _).
  replace (lt_ :: name ++ attrs ++ gt :: rest)
    with ((lt_ :: name) ++ attrs ++ gt :: rest) by done.
  apply occurrences_ge.
Qed.

(** X11. A document in which the text of an edge opening never occurs has
    an empty reference set and no edge anchor. *)
Theorem extract_node_ids_no_edge (doc : text) :
  no_edge_opening doc →
  extract_node_ids doc = ∅ ∧ ¬ has_tag (T "edge") doc.
Proof.
  intros Hno. split.
  - unfold extract_node_ids.
    change source_pattern with (attr_pattern (T "source=")).
    change target_pattern with (attr_pattern (T "target=")).
    rewrite <-(app_nil_r doc).
    rewrite !re_findall_attr_skip by (done || by left).
    by rewrite !re_findall_nil.
  - intros Htag%has_tag_starts. unfold no_edge_opening in Hno.
    change (T "<edge") with (lt_ :: T "edge") in Hno. lia.
Qed.

Lemma extract_node_ids_no_edge_witness :
  extract_node_ids (T "<graph><node id=1/></graph>") = ∅ ∧
  ¬ has_tag (T "edge") (T "<graph><node id=1/></graph>").
Proof.
  apply (extract_node_ids_no_edge (T "<graph><node id=1/></graph>")).
  by vm_compute.
Defined.

Lemma findall_attr_length fuel key s :
  length (findall_from fuel (attr_pattern key) s) ≤ occurrences (T "<edge") s.
Proof.
  revert s. induction fuel as [|fuel IH]; intros s; simpl; [lia|].
  destruct (re_search (attr_pattern key) s) as [m|] eqn:Hs; simpl; [|lia].
  apply re_search_Some in Hs as (before & here & -> & _ & Hm & _).
  apply match_attr_sound in Hm as (attrs & -> & _).
  specialize (IH (m_rest m)).
  etrans; [|apply occurrences_suffix].
  rewrite occurrences_unfold, starts_with_app.
  cbn [T list_ascii_of_string app]. apply le_n_S. etrans; [apply IH|].
  etrans; [|apply (occurrences_suffix _ (T "edge"))].
  etrans; [|apply (occurrences_suffix _ attrs)].
  etrans; [|apply (occurrences_suffix _ key)].
  etrans; [|apply (occurrences_suffix _ [dq])].
  etrans; [|apply (occurrences_suffix _ (m_group1 m))].
  apply (occurrences_suffix _ [dq]).
Qed.

Lemma size_difference_le (X Y : gset text) : size (X ∖ Y) ≤ size X.
Proof. by apply subseteq_size, subseteq_difference_l. Qed.

Lemma size_list_to_set_le (l : list text) :
  size (list_to_set l : gset text) ≤ length l.
Proof.
  induction l as [|x l IH].
  - rewrite list_to_set_nil, size_empty. simpl. lia.
  - rewrite list_to_set_cons, size_union_alt, size_singleton. simpl.
    pose proof (size_difference_le (list_to_set l) {[x]}). lia.
Qed.

(** X12. The reference set holds at most two identifiers for each place of
    the document at which an edge opening stands. *)
Theorem extract_node_ids_size (doc : text) :
  size (extract_node_ids doc) ≤ 2 * occurrences (T "<edge") doc.
Proof.
  unfold extract_node_ids.
  rewrite (left_id_L ∅ (∪)), size_union_alt.
  pose proof (size_list_to_set_le (re_findall source_pattern doc)).
  pose proof (size_list_to_set_le (re_findall target_pattern doc)).
  pose proof (findall_attr_length (S (length doc)) (T "source=") doc).
  pose proof (findall_attr_length (S (length doc)) (T "target=") doc).
  pose proof (size_difference_le
    (list_to_set (re_findall target_pattern doc))
    (list_to_set (re_findall source_pattern doc))).
  unfold re_findall in *.
  change source_pattern with (attr_pattern (T "source=")) in *.
  change target_pattern with (attr_pattern (T "target=")) in *.
  lia.
Qed.

(** ** The empty identifier *)

Lemma fasta_entry_shape sequences entry :
  fasta_entry sequences entry = dict_set sequences [] [] ∨
  ∃ header sequence,
    header ≠ [] ∧
    fasta_entry sequences entry = dict_set sequences header sequence.
Proof.
  destruct (decide (Forall (λ c, isspace c = true) entry)) as [Hblank|Hvis].
  - left. unfold fasta_entry. by rewrite strip_all_space.
  - right. apply fasta_entry_visible.
    apply not_Forall_Exists in Hvis; [|apply _].
    eapply Exists_impl; [done|]. simpl. intros c Hc.
    by destruct (isspace c).
Qed.

(** X15. The only sequence the parser ever stores under the empty
    identifier is the empty sequence: a record with sequence data always
    gets an identifier that is not empty. *)
Theorem parse_fasta_empty_identifier (content v : text) :
  ([], v) ∈ parse_fasta_text content → v = [].
Proof.
  revert v. unfold parse_fasta_text.
  apply (fold_left_invariant (λ d, ∀ v, ([], v) ∈ d → v = []));
    [by intros v ?%elem_of_nil|].
  intros d entry Hd _ v.
  destruct (fasta_entry_shape d entry) as [->|(header & seq & Hne & ->)].
  - intros [[= ->]|Hin]%dict_set_elem_of; [done|by apply Hd].
  - intros [[= <- _]|Hin]%dict_set_elem_of; [done|by apply Hd].
Qed.

Lemma parse_fasta_empty_identifier_witness :
  ([], []) ∈ parse_fasta_text (T ">P1" ++ [nl] ++ T "MKV" ++ [nl] ++ T ">" ++
                               [nl]).
Proof.
  assert (∃ v, ([], v) ∈ parse_fasta_text
                 (T ">P1" ++ [nl] ++ T "MKV" ++ [nl] ++ T ">" ++ [nl]))
    as [v Hv] by (exists []; by_decide).
  by rewrite <-(parse_fasta_empty_identifier _ _ Hv) at 2.
Defined.

(** ** Running the composer on its own output *)

Lemma has_tag_alt name s :
  has_tag name s ↔ ∃ before rest, s = before ++ lt_ :: name ++ rest ∧ gt ∈ rest.
Proof.
  split.
  - intros (before & here & -> & attrs & rest & -> & _).
    exists before, (attrs ++ gt :: rest). split; [done|].
    apply elem_of_app. right. by left.
  - intros (before & rest & -> & (attrs & rest' & -> & Hattrs)%list_elem_of_split_l).
    exists before, (lt_ :: name ++ attrs ++ gt :: rest'). split; [done|].
    by exists attrs, rest'.
Qed.

(** A text spliced in front of a [<] does not remove an anchor. *)
Lemma has_tag_insert name pre block suf :
  lt_ ∉ name →
  (∃ suf', suf = lt_ :: suf') →
  has_tag name (pre ++ suf) → has_tag name (pre ++ block ++ suf).
Proof.
  intros Hname [suf' ->]. rewrite !has_tag_alt.
  intros (before & rest & E & Hgt).
  apply app_eq_app in E as [l [[-> E]|[-> E]]].
  - destruct l as [|x l].
    + simpl in E. rewrite <-E. exists (before ++ block), rest.
      split; [|done]. rewrite app_nil_r, <-?app_assoc. done.
    + injection E as <- E. symmetry in E.
      apply app_eq_app in E as [l2 [[-> E]|[-> E]]].
      * exists before, (l2 ++ block ++ lt_ :: suf'). split.
        -- rewrite <-?app_assoc. simpl. by rewrite <-?app_assoc.
        -- rewrite E in Hgt. rewrite !elem_of_app in *. tauto.
      * destruct l2 as [|y l2].
        -- simpl in E. rewrite app_nil_r. exists before, (block ++ rest).
           split; [|apply elem_of_app; by right].
           rewrite <-?app_assoc. simpl. by rewrite <-?app_assoc, E.
        -- injection E as <- _. destruct Hname.
           apply elem_of_app. right. by left.
  - exists (pre ++ block ++ l), rest. split; [|done].
    rewrite E. by rewrite <-?app_assoc.
Qed.

(** X14. The output of the composer holds both anchors again, so the
    composer accepts its own output: a second run on the output file, with
    the same sequence and metadata files, succeeds too. *)
Theorem rebuild_xgmml_again
    fs xgmml_file fasta_file metadata_file output_file doc fasta metadata :
  fs !! xgmml_file = Some doc →
  fs !! fasta_file = Some fasta →
  fs !! metadata_file = Some metadata →
  has_tag (T "graph") doc →
  has_tag (T "edge") doc →
  ∃ report out,
    rebuild_xgmml xgmml_file fasta_file metadata_file output_file fs =
      (inr report, <[output_file := out]> fs) ∧
    has_tag (T "graph") out ∧ has_tag (T "edge") out ∧
    ∀ output_file', ∃ report' fs',
      rebuild_xgmml output_file fasta_file metadata_file output_file'
        (<[output_file := out]> fs) = (inr report', fs').
Proof.
  intros Hx Hf Hm Hgraph Hedge.
  destruct (rebuild_xgmml_success fs _ _ _ output_file _ _ _
              Hx Hf Hm Hgraph Hedge)
    as (pre & suf & report & Hrun & E & Htag & _).
  eexists report, _. split; [exact Hrun|].
  assert (has_tag (T "graph")
            (pre ++ all_nodes doc (parse_fasta_text fasta)
                      (parse_metadata_text metadata) ++ suf)) as Hgraph'.
  { apply has_tag_insert; [by_decide| |by rewrite E].
    destruct Htag as (attrs & rest & -> & _). by eexists. }
  assert (has_tag (T "edge")
            (pre ++ all_nodes doc (parse_fasta_text fasta)
                      (parse_metadata_text metadata) ++ suf)) as Hedge'.
  { eexists (pre ++ all_nodes _ _ _), suf. split; [|done].
    by rewrite <-app_assoc. }
  split_and!; [done..|]. intros output_file'.
  assert (∀ path, is_Some (fs !! path) →
            is_Some (<[output_file := pre ++ all_nodes doc
                        (parse_fasta_text fasta)
                        (parse_metadata_text metadata) ++ suf]> fs !! path))
    as Hkeep.
  { intros path Hpath. rewrite lookup_insert. by case_decide. }
  destruct (Hkeep fasta_file) as [fasta' Hf']; [by eexists|].
  destruct (Hkeep metadata_file) as [metadata' Hm']; [by eexists|].
  destruct (rebuild_xgmml_success _ output_file fasta_file metadata_file
              output_file' _ fasta' metadata'
              (lookup_insert_eq _ _ _) Hf' Hm' Hgraph' Hedge')
    as (? & ? & report' & Hrun' & _).
  by eexists _, _.
Qed.

Lemma rebuild_xgmml_again_witness :
  ∃ report out,
    rebuild_xgmml "in.xgmml" "seq.fasta" "meta.tab" "out.xgmml"
      (example_fs example_doc) =
      (inr report, <["out.xgmml"%string := out]> (example_fs example_doc)) ∧
    has_tag (T "graph") out ∧ has_tag (T "edge") out ∧
    ∀ output_file', ∃ report' fs',
      rebuild_xgmml "out.xgmml" "seq.fasta" "meta.tab" output_file'
        (<["out.xgmml"%string := out]> (example_fs example_doc))
      = (inr report', fs').
Proof.
  apply (rebuild_xgmml_again (example_fs example_doc)
           "in.xgmml" "seq.fasta" "meta.tab" "out.xgmml"
           example_doc example_fasta example_metadata).
  - by vm_compute.
  - by vm_compute.
  - by vm_compute.
  - apply search_tag_has. vm_compute. by eexists.
  - apply search_tag_has. vm_compute. by eexists.
Defined.
